(** * MetaReview validation scripts: effect sizes, pooling, heterogeneity, Egger

    Shallow embedding of the statistical code of
    [scripts/validate-gold-standard.py], [scripts/validate-comprehensive.py]
    and [scripts/validate-hr.py].

    Numbers.  The scripts compute with binary64 floats.  The embedding keeps
    the IEEE special values (infinities, NaN) and the one place where Python
    and numpy differ, division by zero, but idealises rounding: a finite float
    is a real number and finite arithmetic is exact.  Signed zeros and
    overflow are not modelled.  Python [int]s are [Z].

    Errors.  A Python scalar division [x / y] raises [ZeroDivisionError] when
    [y] is zero; as soon as one operand is a numpy value (an array or a
    [np.float64], e.g. the result of [np.sqrt], [np.sum], [np.log]) the
    division follows IEEE rules and only warns.  Each division of the source
    is translated to [py_div] or [np_div] according to the types of its
    operands at that line. *)

From Stdlib Require Import Reals Lra Lia ZArith String List Permutation Bool.
Import ListNotations.

Open Scope R_scope.

(** ** Floats *)

Inductive num : Type :=
| Fin (r : R)
| PInf
| NInf
| NaN.

Definition of_int (z : Z) : num := Fin (IZR z).

Definition is_finite (x : num) : Prop :=
  match x with Fin _ => True | _ => False end.

Definition Rltb (x y : R) : bool := if Rlt_dec x y then true else false.
Definition Reqb (x y : R) : bool := if Req_dec_T x y then true else false.

Definition fneg (x : num) : num :=
  match x with
  | Fin r => Fin (- r)
  | PInf => NInf
  | NInf => PInf
  | NaN => NaN
  end.

Definition fadd (x y : num) : num :=
  match x, y with
  | NaN, _ | _, NaN => NaN
  | Fin a, Fin b => Fin (a + b)
  | PInf, NInf | NInf, PInf => NaN
  | PInf, _ | _, PInf => PInf
  | NInf, _ | _, NInf => NInf
  end.

Definition fsub (x y : num) : num := fadd x (fneg y).

(** An infinity ([positive] gives its sign) times a finite factor: NaN when
    the factor is zero, otherwise an infinity of the product's sign. *)
Definition inf_times (positive : bool) (r : R) : num :=
  if Reqb r 0 then NaN
  else if Bool.eqb positive (Rltb 0 r) then PInf else NInf.

Definition fmul (x y : num) : num :=
  match x, y with
  | NaN, _ | _, NaN => NaN
  | Fin a, Fin b => Fin (a * b)
  | PInf, Fin b | Fin b, PInf => inf_times true b
  | NInf, Fin b | Fin b, NInf => inf_times false b
  | PInf, PInf | NInf, NInf => PInf
  | PInf, NInf | NInf, PInf => NaN
  end.

(** IEEE division, as numpy performs it: never raises. *)
Definition np_div (x y : num) : num :=
  match x, y with
  | NaN, _ | _, NaN => NaN
  | Fin a, Fin b =>
      if Reqb b 0 then
        (if Reqb a 0 then NaN else if Rltb 0 a then PInf else NInf)
      else Fin (a / b)
  | Fin _, PInf | Fin _, NInf => Fin 0
  | PInf, Fin b => if Rltb b 0 then NInf else PInf
  | NInf, Fin b => if Rltb b 0 then PInf else NInf
  | PInf, PInf | PInf, NInf | NInf, PInf | NInf, NInf => NaN
  end.

Definition fabs (x : num) : num :=
  match x with
  | Fin r => Fin (Rabs r)
  | PInf | NInf => PInf
  | NaN => NaN
  end.

(** [x ** 2] *)
Definition fsq (x : num) : num := fmul x x.

Definition np_sqrt (x : num) : num :=
  match x with
  | Fin r => if Rltb r 0 then NaN else Fin (sqrt r)
  | PInf => PInf
  | NInf | NaN => NaN
  end.

Definition np_log (x : num) : num :=
  match x with
  | Fin r => if Rltb r 0 then NaN else if Reqb r 0 then NInf else Fin (ln r)
  | PInf => PInf
  | NInf | NaN => NaN
  end.

Definition np_exp (x : num) : num :=
  match x with
  | Fin r => Fin (exp r)
  | PInf => PInf
  | NInf => Fin 0
  | NaN => NaN
  end.

(** [x > 0] on floats: false on NaN. *)
Definition fgt0 (x : num) : bool :=
  match x with
  | Fin r => Rltb 0 r
  | PInf => true
  | NInf | NaN => false
  end.

(** [x == y] on floats: false as soon as one side is NaN. *)
Definition feqb (x y : num) : bool :=
  match x, y with
  | Fin a, Fin b => Reqb a b
  | PInf, PInf | NInf, NInf => true
  | _, _ => false
  end.

(** Python's [max(0, x)]: the first argument stays unless the second is
    strictly greater, so a NaN gives [0]. *)
Definition py_max0 (x : num) : num := if fgt0 x then x else Fin 0.

Declare Scope num_scope.
Delimit Scope num_scope with num.
Bind Scope num_scope with num.
Infix "+." := fadd (at level 50, left associativity) : num_scope.
Infix "-." := fsub (at level 50, left associativity) : num_scope.
Infix "*." := fmul (at level 40, left associativity) : num_scope.
Infix "/." := np_div (at level 40, left associativity) : num_scope.
Open Scope num_scope.

(** ** Exceptions *)

Inductive pyerror : Type :=
| ZeroDivisionError.

Inductive exc (A : Type) : Type :=
| Ok (a : A)
| Raise (e : pyerror).
Arguments Ok {A} a.
Arguments Raise {A} e.

Definition bind {A B : Type} (m : exc A) (f : A -> exc B) : exc B :=
  match m with
  | Ok a => f a
  | Raise e => Raise e
  end.

Notation "x <- m ;; k" := (bind m (fun x => k))
  (at level 61, m at next level, right associativity).
Notation "' pat <- m ;; k" :=
  (bind m (fun x => match x with pat => k end))
  (at level 61, pat pattern, m at next level, right associativity).

(** Python scalar division: [ZeroDivisionError] on a zero divisor, whatever
    the dividend; IEEE otherwise. *)
Definition py_div (x y : num) : exc num :=
  if feqb y (Fin 0) then Raise ZeroDivisionError else Ok (np_div x y).

(** ** numpy arrays *)

Definition arr_map2 (f : num -> num -> num) (a b : list num) : list num :=
  map (fun p => f (fst p) (snd p)) (combine a b).

Definition np_sum (a : list num) : num := fold_right fadd (Fin 0) a.

Definition np_mean (a : list num) : num :=
  np_div (np_sum a) (of_int (Z.of_nat (length a))).

(** [a op s] for an array [a] and a scalar [s]. *)
Definition arr_scalar (f : num -> num -> num) (a : list num) (s : num)
  : list num :=
  map (fun x => f x s) a.

(** [s op a] for a scalar [s] and an array [a]. *)
Definition scalar_arr (f : num -> num -> num) (s : num) (a : list num)
  : list num :=
  map (fun x => f s x) a.

(** ** Python values of the result dictionaries *)

#[local] Unset Elimination Schemes.
Inductive pyval : Type :=
| PyFloat (x : num)
| PyInt (z : Z)
| PyStr (s : string)
| PyList (l : list pyval)
| PyDict (d : list (string * pyval)).
#[local] Set Elimination Schemes.

Definition dict : Type := list (string * pyval).

Fixpoint dict_get (key : string) (d : dict) : option pyval :=
  match d with
  | [] => None
  | (k, v) :: rest => if String.eqb k key then Some v else dict_get key rest
  end.

Definition dict_keys (d : dict) : list string := map fst d.

(** Numeric reading of an entry: an [int] is read as the float it equals. *)
Definition dict_num (key : string) (d : dict) : option num :=
  match dict_get key d with
  | Some (PyFloat x) => Some x
  | Some (PyInt z) => Some (of_int z)
  | _ => None
  end.

Definition dict_sub (key : string) (d : dict) : option dict :=
  match dict_get key d with
  | Some (PyDict s) => Some s
  | _ => None
  end.

Definition floats (l : list num) : pyval := PyList (map PyFloat l).

(** The distribution functions of [scipy.stats] used by the scripts. *)
Record scipy_stats : Type := {
  chi2_cdf : num -> Z -> num;
  norm_cdf : num -> num;
  t_cdf : num -> Z -> num
}.

(** ** scripts/validate-gold-standard.py *)

Module GoldStandard.

(** [log_odds_ratio], lines 25-34: no zero-cell correction.  The four cells
    are Python ints, so the five divisions are Python divisions. *)
Definition log_odds_ratio (events1 total1 events2 total2 : Z)
  : exc (num * num) :=
  let a := events1 in
  let b := (total1 - events1)%Z in
  let c := events2 in
  let d := (total2 - events2)%Z in
  q <- py_div (of_int (a * d)) (of_int (b * c)) ;;
  let yi := np_log q in
  ia <- py_div (Fin 1) (of_int a) ;;
  ib <- py_div (Fin 1) (of_int b) ;;
  ic <- py_div (Fin 1) (of_int c) ;;
  id <- py_div (Fin 1) (of_int d) ;;
  let sei := np_sqrt (ia +. ib +. ic +. id) in
  Ok (yi, sei).

Section Steps.
Variable stats : scipy_stats.

(** Steps 2 to 4, lines 63-98, as a function of [yi_arr] and [vi_arr].
    Every operand is a numpy array or a [np.float64]: no division raises. *)
Record pooling : Type := {
  summary_fe : num; se_fe : num;
  df : Z; Q : num; Q_pvalue : num;
  tau2 : num; tau : num; I2 : num; H2 : num;
  summary_re : num; se_re : num; z_re : num; p_re : num;
  weights_fe_pct : list num; weights_re_pct : list num
}.

Definition steps_2_to_4 (yi_arr vi_arr : list num) : pooling :=
  (* Step 2: fixed effects *)
  let w_fe := scalar_arr np_div (Fin 1) vi_arr in
  let sum_w_fe := np_sum w_fe in
  let summary_fe := np_sum (arr_map2 fmul w_fe yi_arr) /. sum_w_fe in
  let se_fe := np_sqrt (Fin 1 /. sum_w_fe) in
  (* Step 3: heterogeneity *)
  let k := Z.of_nat (length yi_arr) in
  let df := (k - 1)%Z in
  let Q := np_sum (arr_map2 fmul w_fe
                     (map fsq (arr_scalar fsub yi_arr summary_fe))) in
  let Q_pvalue := Fin 1 -. chi2_cdf stats Q df in
  let C := sum_w_fe -. np_sum (map fsq w_fe) /. sum_w_fe in
  let tau2 := py_max0 ((Q -. of_int df) /. C) in
  let tau := np_sqrt tau2 in
  let I2 := if fgt0 Q then py_max0 ((Q -. of_int df) /. Q *. Fin 100)
            else Fin 0 in
  let H2 := if (df >? 0)%Z then Q /. of_int df else Fin 1 in
  (* Step 4: random effects *)
  let w_re := scalar_arr np_div (Fin 1) (arr_scalar fadd vi_arr tau2) in
  let sum_w_re := np_sum w_re in
  let summary_re := np_sum (arr_map2 fmul w_re yi_arr) /. sum_w_re in
  let se_re := np_sqrt (Fin 1 /. sum_w_re) in
  let z_re := summary_re /. se_re in
  let p_re := Fin 2 *. (Fin 1 -. norm_cdf stats (fabs z_re)) in
  let weights_fe_pct := arr_scalar fmul (arr_scalar np_div w_fe sum_w_fe)
                          (Fin 100) in
  let weights_re_pct := arr_scalar fmul (arr_scalar np_div w_re sum_w_re)
                          (Fin 100) in
  {| summary_fe := summary_fe; se_fe := se_fe;
     df := df; Q := Q; Q_pvalue := Q_pvalue;
     tau2 := tau2; tau := tau; I2 := I2; H2 := H2;
     summary_re := summary_re; se_re := se_re; z_re := z_re; p_re := p_re;
     weights_fe_pct := weights_fe_pct; weights_re_pct := weights_re_pct |}.

(** Step 5, lines 104-129: Egger's regression.  [n_egger] and [df_egger]
    are Python ints; [1.0/n_egger] is the only Python division. *)
Record egger : Type := {
  intercept : num; se_intercept : num; t_egger : num; p_egger : num;
  df_egger : Z
}.

Definition eggers_test (yi_arr sei_arr : list num) : exc egger :=
  let x_egger := scalar_arr np_div (Fin 1) sei_arr in
  let y_egger := arr_map2 np_div yi_arr sei_arr in
  let n_egger := Z.of_nat (length x_egger) in
  let mean_x := np_mean x_egger in
  let mean_y := np_mean y_egger in
  let Sxx := np_sum (map fsq (arr_scalar fsub x_egger mean_x)) in
  let Sxy := np_sum (arr_map2 fmul (arr_scalar fsub x_egger mean_x)
                       (arr_scalar fsub y_egger mean_y)) in
  let slope_egger := Sxy /. Sxx in
  let intercept_egger := mean_y -. slope_egger *. mean_x in
  let residuals :=
    arr_map2 fsub y_egger
      (scalar_arr fadd intercept_egger
         (scalar_arr fmul slope_egger x_egger)) in
  let sse := np_sum (map fsq residuals) in
  let df_egger := (n_egger - 2)%Z in
  let mse := sse /. of_int df_egger in
  inv_n <- py_div (Fin 1) (of_int n_egger) ;;
  let se_intercept := np_sqrt (mse *. (inv_n +. fsq mean_x /. Sxx)) in
  let t_egger := intercept_egger /. se_intercept in
  let p_egger := Fin 2 *. (Fin 1 -. t_cdf stats (fabs t_egger) df_egger) in
  Ok {| intercept := intercept_egger; se_intercept := se_intercept;
        t_egger := t_egger; p_egger := p_egger; df_egger := df_egger |}.

End Steps.

End GoldStandard.

(** ** scripts/validate-comprehensive.py *)

Module Comprehensive.

(** [correct_zero_cells], lines 25-31.  The arguments are Python numbers:
    ints on the first call, possibly halves when called on corrected
    counts. *)
Definition correct_zero_cells (events1 total1 events2 total2 : num)
  : num * num * num * num :=
  let has_zero := feqb events1 (Fin 0) || feqb events2 (Fin 0)
                  || feqb events1 total1 || feqb events2 total2 in
  if negb has_zero then (events1, total1, events2, total2)
  else (events1 +. Fin 0.5, total1 +. Fin 1,
        events2 +. Fin 0.5, total2 +. Fin 1).

(** [log_odds_ratio], lines 34-39. *)
Definition log_odds_ratio (events1 total1 events2 total2 : num)
  : exc (num * num) :=
  let '(e1, t1, e2, t2) := correct_zero_cells events1 total1 events2 total2 in
  let a := e1 in
  let b := t1 -. e1 in
  let c := e2 in
  let d := t2 -. e2 in
  q <- py_div (a *. d) (b *. c) ;;
  let yi := np_log q in
  ia <- py_div (Fin 1) a ;;
  ib <- py_div (Fin 1) b ;;
  ic <- py_div (Fin 1) c ;;
  id <- py_div (Fin 1) d ;;
  let sei := np_sqrt (ia +. ib +. ic +. id) in
  Ok (yi, sei).

(** [log_risk_ratio], lines 42-48. *)
Definition log_risk_ratio (events1 total1 events2 total2 : num)
  : exc (num * num) :=
  let '(e1, t1, e2, t2) := correct_zero_cells events1 total1 events2 total2 in
  p1 <- py_div e1 t1 ;;
  p2 <- py_div e2 t2 ;;
  r <- py_div p1 p2 ;;
  let yi := np_log r in
  u1 <- py_div (Fin 1 -. p1) e1 ;;
  u2 <- py_div (Fin 1 -. p2) e2 ;;
  let sei := np_sqrt (u1 +. u2) in
  Ok (yi, sei).

(** [mean_difference], lines 51-54. *)
Definition mean_difference (mean1 sd1 n1 mean2 sd2 n2 : num)
  : exc (num * num) :=
  let yi := mean1 -. mean2 in
  v1 <- py_div (fsq sd1) n1 ;;
  v2 <- py_div (fsq sd2) n2 ;;
  let sei := np_sqrt (v1 +. v2) in
  Ok (yi, sei).

(** [hedges_g], lines 57-64.  [sp] is a [np.float64], so [cohen_d] and
    [yi**2 / (2*(n1+n2))] are numpy divisions; the others divide Python
    numbers. *)
Definition hedges_g (mean1 sd1 n1 mean2 sd2 n2 : num) : exc (num * num) :=
  let df := n1 +. n2 -. Fin 2 in
  pooled <- py_div ((n1 -. Fin 1) *. fsq sd1 +. (n2 -. Fin 1) *. fsq sd2) df ;;
  let sp := np_sqrt pooled in
  let cohen_d := (mean1 -. mean2) /. sp in
  j <- py_div (Fin 3) (Fin 4 *. df -. Fin 1) ;;
  let J := Fin 1 -. j in
  let yi := cohen_d *. J in
  r <- py_div (n1 +. n2) (n1 *. n2) ;;
  let sei := np_sqrt (r +. fsq yi /. (Fin 2 *. (n1 +. n2))) *. J in
  Ok (yi, sei).

Section MetaAnalysis.
Variable stats : scipy_stats.

(** The heterogeneity dictionary of the [df <= 0] branch, line 82. *)
Definition het_degenerate : dict :=
  [("Q", PyInt 0); ("df", PyInt 0); ("pValue", PyInt 1); ("I2", PyInt 0);
   ("tau2", PyInt 0); ("tau", PyInt 0); ("H2", PyInt 1)]%string.

(** [meta_analysis], lines 67-130.  [Q], [C], [summary] and [se] are Python
    floats (results of [float(...)]), so [(Q - df) / C], [(Q - df) / Q],
    [Q / df] and [summary / se] are Python divisions; the divisions on
    [sum_w_fe] and [sum_w_re] are numpy divisions. *)
Definition meta_analysis (yi_arr vi_arr : list num) (model : string)
  : exc dict :=
  let yi := yi_arr in
  let vi := vi_arr in
  let k := Z.of_nat (length yi) in
  let df := (k - 1)%Z in
  (* Fixed effects *)
  let w_fe := scalar_arr np_div (Fin 1) vi in
  let sum_w_fe := np_sum w_fe in
  let summary_fe := np_sum (arr_map2 fmul w_fe yi) /. sum_w_fe in
  let se_fe := np_sqrt (Fin 1 /. sum_w_fe) in
  let weights_fe := arr_scalar fmul (arr_scalar np_div w_fe sum_w_fe)
                      (Fin 100) in
  (* Heterogeneity *)
  if (df <=? 0)%Z then
    Ok [("summary", PyFloat summary_fe);
        ("se", PyFloat se_fe);
        ("heterogeneity", PyDict het_degenerate);
        ("weights_fe", floats weights_fe);
        ("weights_re", floats weights_fe)]%string
  else
    let Q := np_sum (arr_map2 fmul w_fe
                       (map fsq (arr_scalar fsub yi summary_fe))) in
    let Q_pvalue := Fin 1 -. chi2_cdf stats Q df in
    let C := sum_w_fe -. np_sum (map fsq w_fe) /. sum_w_fe in
    t <- py_div (Q -. of_int df) C ;;
    let tau2 := py_max0 t in
    let tau := np_sqrt tau2 in
    I2 <- (if fgt0 Q
           then r <- py_div (Q -. of_int df) Q ;; Ok (py_max0 (r *. Fin 100))
           else Ok (Fin 0)) ;;
    H2 <- (if (df >? 0)%Z then py_div Q (of_int df) else Ok (Fin 1)) ;;
    let het := [("Q", PyFloat Q); ("df", PyInt df); ("pValue", PyFloat Q_pvalue);
                ("I2", PyFloat I2); ("tau2", PyFloat tau2);
                ("tau", PyFloat tau); ("H2", PyFloat H2)]%string in
    (* Random effects *)
    let w_re := scalar_arr np_div (Fin 1) (arr_scalar fadd vi tau2) in
    let sum_w_re := np_sum w_re in
    let summary_re := np_sum (arr_map2 fmul w_re yi) /. sum_w_re in
    let se_re := np_sqrt (Fin 1 /. sum_w_re) in
    let '(summary, se) :=
      if String.eqb model "fixed" then (summary_fe, se_fe)
      else (summary_re, se_re) in
    z <- py_div summary se ;;
    let p := Fin 2 *. (Fin 1 -. norm_cdf stats (fabs z)) in
    Ok [("summary", PyFloat summary);
        ("se", PyFloat se);
        ("z", PyFloat z);
        ("pValue", PyFloat p);
        ("heterogeneity", PyDict het);
        ("weights_fe", floats weights_fe);
        ("weights_re",
          floats (arr_scalar fmul (arr_scalar np_div w_re sum_w_re) (Fin 100)));
        ("fixed_summary", PyFloat summary_fe);
        ("fixed_se", PyFloat se_fe)]%string.

End MetaAnalysis.

End Comprehensive.

(** ** scripts/validate-hr.py *)

Module HR.

Record study : Type := {
  name : string;
  hr : num;
  ciLower : num;
  ciUpper : num
}.

(** [log_hazard_ratio], lines 41-50. *)
Definition log_hazard_ratio (hr ci_lower ci_upper : num) : num * num :=
  let yi := np_log hr in
  let sei := (np_log ci_upper -. np_log ci_lower) /. (Fin 2 *. Fin 1.96) in
  (yi, sei).

Section MetaAnalysis.
Variable stats : scipy_stats.

(** Step 1, lines 63-81: the per-study dictionaries, before the weight is
    added. *)
Definition per_study_entry (s : study) : dict :=
  let '(yi, sei) := log_hazard_ratio (hr s) (ciLower s) (ciUpper s) in
  let vi := fsq sei in
  [("name", PyStr (name s));
   ("yi", PyFloat yi);
   ("sei", PyFloat sei);
   ("vi", PyFloat vi);
   ("effect", PyFloat (np_exp yi));
   ("ciLower", PyFloat (np_exp (yi -. Fin 1.96 *. sei)));
   ("ciUpper", PyFloat (np_exp (yi +. Fin 1.96 *. sei)))]%string.

Definition study_yi (s : study) : num :=
  fst (log_hazard_ratio (hr s) (ciLower s) (ciUpper s)).

Definition study_vi (s : study) : num :=
  fsq (snd (log_hazard_ratio (hr s) (ciLower s) (ciUpper s))).

(** What Steps 2 to 6 compute from the two arrays. *)
Record pooling : Type := {
  pooled : dict;
  fixed : dict;
  het : dict;
  weights_re_pct : list num
}.

Definition het_degenerate : dict :=
  [("Q", PyFloat (Fin 0)); ("df", PyInt 0); ("pValue", PyFloat (Fin 1));
   ("I2", PyFloat (Fin 0)); ("tau2", PyFloat (Fin 0));
   ("tau", PyFloat (Fin 0)); ("H2", PyFloat (Fin 1))]%string.

Definition pooled_dict (summary se z p : num) : dict :=
  [("summary", PyFloat summary);
   ("se", PyFloat se);
   ("effect", PyFloat (np_exp summary));
   ("ciLower", PyFloat (np_exp (summary -. Fin 1.96 *. se)));
   ("ciUpper", PyFloat (np_exp (summary +. Fin 1.96 *. se)));
   ("z", PyFloat z);
   ("pValue", PyFloat p)]%string.

(** Lines 83-166 of [meta_analysis_hr].  Here [sum_w_fe], [sum_w2] and
    [sum_w_re] are Python floats too, so [1.0 / sum_w_fe],
    [sum_w2 / sum_w_fe] and [1.0 / sum_w_re] are Python divisions; an array
    or [np.sum(...)] divided by them is a numpy division. *)
Definition pool (yi vi : list num) (model : string) : exc pooling :=
  let k := Z.of_nat (length yi) in
  let df := (k - 1)%Z in
  (* Step 2: fixed effects *)
  let w_fe := scalar_arr np_div (Fin 1) vi in
  let sum_w_fe := np_sum w_fe in
  let summary_fe := np_sum (arr_map2 fmul w_fe yi) /. sum_w_fe in
  inv_fe <- py_div (Fin 1) sum_w_fe ;;
  let se_fe := np_sqrt inv_fe in
  (* Step 3: heterogeneity; Step 4: random effects *)
  '(het, weights_re_pct, summary, se) <-
    (if (df <=? 0)%Z then
       Ok (het_degenerate,
           arr_scalar fmul (arr_scalar np_div w_fe sum_w_fe) (Fin 100),
           summary_fe, se_fe)
     else
       let Q := np_sum (arr_map2 fmul w_fe
                          (map fsq (arr_scalar fsub yi summary_fe))) in
       let Q_pvalue := Fin 1 -. chi2_cdf stats Q df in
       let sum_w2 := np_sum (map fsq w_fe) in
       c <- py_div sum_w2 sum_w_fe ;;
       let C := sum_w_fe -. c in
       t <- py_div (Q -. of_int df) C ;;
       let tau2 := py_max0 t in
       let tau := np_sqrt tau2 in
       I2 <- (if fgt0 Q
              then r <- py_div (Q -. of_int df) Q ;;
                   Ok (py_max0 (r *. Fin 100))
              else Ok (Fin 0)) ;;
       H2 <- py_div Q (of_int df) ;;
       let het := [("Q", PyFloat Q); ("df", PyInt df);
                   ("pValue", PyFloat Q_pvalue); ("I2", PyFloat I2);
                   ("tau2", PyFloat tau2); ("tau", PyFloat tau);
                   ("H2", PyFloat H2)]%string in
       let w_re := scalar_arr np_div (Fin 1) (arr_scalar fadd vi tau2) in
       let sum_w_re := np_sum w_re in
       let summary_re := np_sum (arr_map2 fmul w_re yi) /. sum_w_re in
       inv_re <- py_div (Fin 1) sum_w_re ;;
       let se_re := np_sqrt inv_re in
       let weights_re_pct :=
         arr_scalar fmul (arr_scalar np_div w_re sum_w_re) (Fin 100) in
       if String.eqb model "fixed"
       then Ok (het, weights_re_pct, summary_fe, se_fe)
       else Ok (het, weights_re_pct, summary_re, se_re)) ;;
  (* Step 5: z-test and p-value *)
  z <- py_div summary se ;;
  let p := Fin 2 *. (Fin 1 -. norm_cdf stats (fabs z)) in
  (* Step 6 and the fixed-effects block *)
  let pooled := pooled_dict summary se z p in
  z_fe <- py_div summary_fe se_fe ;;
  let p_fe := Fin 2 *. (Fin 1 -. norm_cdf stats (fabs z_fe)) in
  let fixed := pooled_dict summary_fe se_fe z_fe p_fe in
  Ok {| pooled := pooled; fixed := fixed; het := het;
        weights_re_pct := weights_re_pct |}.

(** [meta_analysis_hr], lines 53-173. *)
Definition meta_analysis_hr (studies : list study) (model : string)
  : exc dict :=
  let per_study := map per_study_entry studies in
  let yi_arr := map study_yi studies in
  let vi_arr := map study_vi studies in
  r <- pool yi_arr vi_arr model ;;
  let per_study :=
    map (fun pw => fst pw ++ [("weight"%string, PyFloat (snd pw))])
        (combine per_study (weights_re_pct r)) in
  Ok [("studies", PyList (map PyDict per_study));
      ("pooled", PyDict (pooled r));
      ("fixed", PyDict (fixed r));
      ("heterogeneity", PyDict (het r))]%string.

End MetaAnalysis.

End HR.

(** ** The formulas of the specification, over the reals

    Section 4.2 and 4.3 of the specification, written as the text states
    them for an effect-size sequence of pairs [(yi, vi)].  The code above is
    compared with these. *)

Module Formulas.

Definition sumR (l : list R) : R := fold_right Rplus 0%R l.

Definition yi (e : R * R) : R := fst e.
Definition vi (e : R * R) : R := snd e.

Section Sequence.
Variable es : list (R * R).

Definition k : Z := Z.of_nat (length es).
Definition df : Z := (k - 1)%Z.

(** Fixed weights [w_i = 1/vi]. *)
Definition w (e : R * R) : R := 1 / vi e.
Definition sum_w : R := sumR (map w es).

(** Weighted mean [ybar = sum(w_i yi) / sum(w_i)]. *)
Definition ybar : R := sumR (map (fun e => w e * yi e) es) / sum_w.

(** [Q = sum w_i (yi - ybar)^2]. *)
Definition Q : R := sumR (map (fun e => w e * (yi e - ybar) ^ 2) es).

(** [C = sum(w_i) - sum(w_i^2) / sum(w_i)]. *)
Definition C : R := sum_w - sumR (map (fun e => w e ^ 2) es) / sum_w.

Definition tau2 : R := Rmax 0 ((Q - IZR df) / C).
Definition tau : R := sqrt tau2.
Definition I2 : R :=
  if Rlt_dec 0 Q then Rmax 0 ((Q - IZR df) / Q * 100) else 0.
Definition H2 : R := Q / IZR df.

(** Pooling with weights [1 / (vi + t)]: [t = 0] is the fixed-effect model,
    [t = tau2] the DerSimonian-Laird random-effects model. *)
Definition w_at (t : R) (e : R * R) : R := 1 / (vi e + t).
Definition sum_w_at (t : R) : R := sumR (map (w_at t) es).
Definition summary_at (t : R) : R :=
  sumR (map (fun e => w_at t e * yi e) es) / sum_w_at t.
Definition se_at (t : R) : R := sqrt (1 / sum_w_at t).
Definition weight_pct_at (t : R) (e : R * R) : R :=
  w_at t e / sum_w_at t * 100.

(** Fixed-effect standard error [sqrt(1 / sum(w_i))]. *)
Definition se_fixed : R := sqrt (1 / sum_w).

End Sequence.

End Formulas.

(** The two arrays a caller builds from an effect-size sequence. *)
Definition yis (es : list (R * R)) : list num := map (fun e => Fin (fst e)) es.
Definition vis (es : list (R * R)) : list num := map (fun e => Fin (snd e)) es.

Definition positive_variances (es : list (R * R)) : Prop :=
  Forall (fun e => 0 < snd e) es.

(** A stand-in for [scipy.stats] where a concrete instance is needed: the
    statements below hold for every instance. *)
Definition constant_stats : scipy_stats :=
  {| chi2_cdf := fun _ _ => Fin (1 / 2);
     norm_cdf := fun _ => Fin (1 / 2);
     t_cdf := fun _ _ => Fin (1 / 2) |}.

(** ** What the pooling code returns on positive variances

    The dictionaries and records below hold the values of [Formulas]; the
    evaluation lemmas prove that the three scripts return them. *)

Section Expected.
Import Formulas.
Variable stats : scipy_stats.
Variable es : list (R * R).

Definition het_formulas : dict :=
  [("Q", PyFloat (Fin (Q es)));
   ("df", PyInt (df es));
   ("pValue", PyFloat (Fin 1 -. chi2_cdf stats (Fin (Q es)) (df es)));
   ("I2", PyFloat (Fin (I2 es)));
   ("tau2", PyFloat (Fin (tau2 es)));
   ("tau", PyFloat (Fin (tau es)));
   ("H2", PyFloat (Fin (H2 es)))]%string.

(** The between-study variance of the selected model. *)
Definition model_tau2 (model : string) : R :=
  if String.eqb model "fixed" then 0 else tau2 es.

Definition z_at (t : R) : R := summary_at es t / se_at es t.

Definition p_at (t : R) : num :=
  Fin 2 *. (Fin 1 -. norm_cdf stats (Fin (Rabs (z_at t)))).

Definition weights_at (t : R) : list num :=
  map (fun e => Fin (weight_pct_at es t e)) es.

Definition comprehensive_result (model : string) : dict :=
  let t := model_tau2 model in
  [("summary", PyFloat (Fin (summary_at es t)));
   ("se", PyFloat (Fin (se_at es t)));
   ("z", PyFloat (Fin (z_at t)));
   ("pValue", PyFloat (p_at t));
   ("heterogeneity", PyDict het_formulas);
   ("weights_fe", floats (weights_at 0));
   ("weights_re", floats (weights_at (tau2 es)));
   ("fixed_summary", PyFloat (Fin (summary_at es 0)));
   ("fixed_se", PyFloat (Fin (se_at es 0)))]%string.

Definition hr_result (model : string) : HR.pooling :=
  let t := model_tau2 model in
  {| HR.pooled :=
       HR.pooled_dict (Fin (summary_at es t)) (Fin (se_at es t))
         (Fin (z_at t)) (p_at t);
     HR.fixed :=
       HR.pooled_dict (Fin (summary_at es 0)) (Fin (se_at es 0))
         (Fin (z_at 0)) (p_at 0);
     HR.het := het_formulas;
     HR.weights_re_pct := weights_at (tau2 es) |}.

Definition gold_result : GoldStandard.pooling :=
  {| GoldStandard.summary_fe := Fin (summary_at es 0);
     GoldStandard.se_fe := Fin (se_at es 0);
     GoldStandard.df := df es;
     GoldStandard.Q := Fin (Q es);
     GoldStandard.Q_pvalue := Fin 1 -. chi2_cdf stats (Fin (Q es)) (df es);
     GoldStandard.tau2 := Fin (tau2 es);
     GoldStandard.tau := Fin (tau es);
     GoldStandard.I2 := Fin (I2 es);
     GoldStandard.H2 := Fin (H2 es);
     GoldStandard.summary_re := Fin (summary_at es (tau2 es));
     GoldStandard.se_re := Fin (se_at es (tau2 es));
     GoldStandard.z_re := Fin (z_at (tau2 es));
     GoldStandard.p_re := p_at (tau2 es);
     GoldStandard.weights_fe_pct := weights_at 0;
     GoldStandard.weights_re_pct := weights_at (tau2 es) |}.

End Expected.

(** The degenerate heterogeneity tuple of the single-study convention,
    read numerically. *)
Definition is_degenerate_het (h : dict) : Prop :=
  dict_num "Q" h = Some (Fin 0) /\
  dict_num "df" h = Some (Fin 0) /\
  dict_num "pValue" h = Some (Fin 1) /\
  dict_num "I2" h = Some (Fin 0) /\
  dict_num "tau2" h = Some (Fin 0) /\
  dict_num "tau" h = Some (Fin 0) /\
  dict_num "H2" h = Some (Fin 1).

(** Weight percentages add up to 100 within the tolerance of the
    specification. *)
Definition sums_to_100 (l : list num) : Prop :=
  exists s : R, np_sum l = Fin s /\ Rabs (s - 100) <= 1 / 1000000.

(** The truncation of the DerSimonian-Laird estimate: [t] is a number, never
    negative, and zero as soon as [q <= dfz]. *)
Definition tau2_truncated (q : num) (dfz : Z) (t : num) : Prop :=
  exists (qr tr : R),
    q = Fin qr /\ t = Fin tr /\ 0 <= tr /\ (qr <= IZR dfz -> tr = 0%R).

(** What [meta_analysis] returns for a single study. *)
Definition comprehensive_single_result (es : list (R * R)) : dict :=
  [("summary", PyFloat (Fin (Formulas.summary_at es 0)));
   ("se", PyFloat (Fin (Formulas.se_at es 0)));
   ("heterogeneity", PyDict Comprehensive.het_degenerate);
   ("weights_fe", floats (weights_at es 0));
   ("weights_re", floats (weights_at es 0))]%string.

(** A result of [meta_analysis] that carries a pooled estimate with its
    summary, se, z and pValue, and the fixed-effect summary and se next to
    it. *)
Definition reports_both_models (d : dict) : Prop :=
  (exists summary se z p,
     dict_num "summary" d = Some summary /\ dict_num "se" d = Some se /\
     dict_num "z" d = Some z /\ dict_num "pValue" d = Some p) /\
  (exists summary se,
     dict_num "fixed_summary" d = Some summary /\
     dict_num "fixed_se" d = Some se).

(** A bias-test result all of whose statistics are finite numbers. *)
Definition egger_defined (r : GoldStandard.egger) : Prop :=
  is_finite (GoldStandard.intercept r) /\
  is_finite (GoldStandard.se_intercept r) /\
  is_finite (GoldStandard.t_egger r) /\
  is_finite (GoldStandard.p_egger r).

(** The pooled standard deviation of Hedges' g, the divisor of
    [d = (mean1 - mean2) / sp] in section 4.1 of the specification. *)
Definition pooled_sd (sd1 n1 sd2 n2 : R) : R :=
  sqrt (((n1 - 1) * sd1 ^ 2 + (n2 - 1) * sd2 ^ 2) / (n1 + n2 - 2)).

(** A small effect-size sequence for examples. *)
Definition two_studies : list (R * R) := [(0, 1); (1, 2)]%R.

(** * Further definitions *)

(** ** Cells and counts of a 2x2 table *)

(** The four cells [a, b, c, d] that [log_odds_ratio] derives from the
    corrected counts, line 36. *)
Definition corrected_cells (events1 total1 events2 total2 : num)
  : num * num * num * num :=
  let '(e1, t1, e2, t2) :=
    Comprehensive.correct_zero_cells events1 total1 events2 total2 in
  (e1, t1 -. e1, e2, t2 -. e2).

(** A 2x2 table of integer counts with an empty cell. *)
Definition has_zero_cell (events1 total1 events2 total2 : Z) : bool :=
  ((events1 =? 0) || (events2 =? 0)
   || (events1 =? total1) || (events2 =? total2))%Z.

(** The cells of a table of integer counts as reals, 0.5 added to each when
    the table has an empty cell. *)
Definition cell_values (events1 total1 events2 total2 : Z) : R * R * R * R :=
  let h := if has_zero_cell events1 total1 events2 total2 then 0.5 else 0 in
  (IZR events1 + h, IZR (total1 - events1) + h,
   IZR events2 + h, IZR (total2 - events2) + h)%R.

Definition valid_counts (events1 total1 events2 total2 : Z) : Prop :=
  (0 <= events1 <= total1 /\ 0 <= events2 <= total2)%Z.

(** What lines 37-38 of [log_odds_ratio] compute on four positive cells:
    the log odds ratio and its standard error. *)
Definition log_or (c : R * R * R * R) : R :=
  let '(a, b, c, d) := c in ln (a * d / (b * c)).
Definition se_log_or (c : R * R * R * R) : R :=
  let '(a, b, c, d) := c in sqrt (1 / a + 1 / b + 1 / c + 1 / d).

(** The counts of a table of integers as reals, corrected when the table has
    an empty cell: events, total, events, total. *)
Definition count_values (events1 total1 events2 total2 : Z) : R * R * R * R :=
  if has_zero_cell events1 total1 events2 total2
  then (IZR events1 + 0.5, IZR total1 + 1,
        IZR events2 + 0.5, IZR total2 + 1)%R
  else (IZR events1, IZR total1, IZR events2, IZR total2).

(** What lines 44-47 of [log_risk_ratio] compute on corrected counts: the
    log risk ratio and its standard error. *)
Definition log_rr (c : R * R * R * R) : R :=
  let '(e1, t1, e2, t2) := c in ln (e1 / t1 / (e2 / t2)).
Definition se_log_rr (c : R * R * R * R) : R :=
  let '(e1, t1, e2, t2) := c in
  sqrt ((1 - e1 / t1) / e1 + (1 - e2 / t2) / e2).

(** What lines 58-63 of [hedges_g] compute on finite data: the small-sample
    factor [J], the estimate [d * J] and its standard error. *)
Definition hedges_J (n1 n2 : R) : R := 1 - 3 / (4 * (n1 + n2 - 2) - 1).
Definition hedges_yi (mean1 sd1 n1 mean2 sd2 n2 : R) : R :=
  (mean1 - mean2) / pooled_sd sd1 n1 sd2 n2 * hedges_J n1 n2.
Definition hedges_sei (mean1 sd1 n1 mean2 sd2 n2 : R) : R :=
  sqrt ((n1 + n2) / (n1 * n2)
        + hedges_yi mean1 sd1 n1 mean2 sd2 n2 ^ 2 / (2 * (n1 + n2)))
  * hedges_J n1 n2.

(** ** Weights of studies with a zero variance *)

(** A weight: a non-negative number or plus infinity. *)
Definition nonneg_or_inf (x : num) : Prop :=
  match x with
  | Fin r => 0 <= r
  | PInf => True
  | NInf | NaN => False
  end.

(** ** Reported hazard ratios *)

(** A hazard ratio as a study reports it, with finite numbers. *)
Record hr_report : Type := {
  report_name : string;
  reported_hr : R;
  reported_lower : R;
  reported_upper : R
}.

Definition to_study (r : hr_report) : HR.study :=
  {| HR.name := report_name r;
     HR.hr := Fin (reported_hr r);
     HR.ciLower := Fin (reported_lower r);
     HR.ciUpper := Fin (reported_upper r) |}.

(** Positive ratio and bounds, and an interval that is not a point. *)
Definition proper_report (r : hr_report) : Prop :=
  0 < reported_hr r /\ 0 < reported_lower r /\ 0 < reported_upper r /\
  reported_lower r <> reported_upper r.

(** The effect size [(yi, vi)] of a reported hazard ratio. *)
Definition report_effect (r : hr_report) : R * R :=
  let sei := ((ln (reported_upper r) - ln (reported_lower r)) / (2 * 1.96))%R
  in (ln (reported_hr r), (sei * sei)%R).

(** ** The binary scenarios of validate-comprehensive.py *)

(** A study of the binary scenarios of validate-comprehensive.py. *)
Record binary_study : Type := {
  study_name : string;
  events1 : Z;
  total1 : Z;
  events2 : Z;
  total2 : Z
}.

(** The loop of a binary scenario (lines 195-199, 295-299, 329-333,
    387-391, 421-425): the effect size of each study in turn, [vi = sei**2],
    both appended to the lists of effects and variances.  The first study
    whose effect size raises ends the script.  The report entries that the
    same loop appends to [per_study_*] are not part of this model. *)
Fixpoint effect_sizes (effect : num -> num -> num -> num -> exc (num * num))
    (studies : list binary_study) : exc (list num * list num) :=
  match studies with
  | [] => Ok ([], [])
  | s :: rest =>
      ' (yi, sei) <- effect (of_int (events1 s)) (of_int (total1 s))
                       (of_int (events2 s)) (of_int (total2 s)) ;;
      let vi := fsq sei in
      ' (yi_rest, vi_rest) <- effect_sizes effect rest ;;
      Ok (yi :: yi_rest, vi :: vi_rest)
  end.

(** The loop followed by the call of [meta_analysis] on the two lists,
    with the default model. *)
Definition binary_scenario (stats : scipy_stats)
    (effect : num -> num -> num -> num -> exc (num * num))
    (studies : list binary_study) : exc dict :=
  ' (yi, vi) <- effect_sizes effect studies ;;
  Comprehensive.meta_analysis stats yi vi "random".

Definition valid_study (s : binary_study) : Prop :=
  valid_counts (events1 s) (total1 s) (events2 s) (total2 s).

(** Effect size and variance of a valid study under the two binary
    measures. *)
Definition or_effect (s : binary_study) : R * R :=
  let cells := cell_values (events1 s) (total1 s) (events2 s) (total2 s) in
  (log_or cells, (se_log_or cells * se_log_or cells)%R).
Definition rr_effect (s : binary_study) : R * R :=
  let counts := count_values (events1 s) (total1 s) (events2 s) (total2 s) in
  (log_rr counts, (se_log_rr counts * se_log_rr counts)%R).

(** The data of scenario 4, lines 159-164. *)
Definition zero_cell_studies : list binary_study :=
  [ {| study_name := "ZC_1"; events1 := 0; total1 := 20;
       events2 := 5; total2 := 22 |};
    {| study_name := "ZC_2"; events1 := 3; total1 := 30;
       events2 := 8; total2 := 28 |};
    {| study_name := "ZC_3"; events1 := 1; total1 := 15;
       events2 := 6; total2 := 18 |};
    {| study_name := "ZC_4"; events1 := 10; total1 := 50;
       events2 := 0; total2 := 45 |} ].

(** ** Egger's regression over the reals *)

(** The quantities of Egger's regression, lines 104-123 of
    validate-gold-standard.py, over the reals, for a sequence of pairs
    [(yi, sei)] with non-zero [sei]. *)
Module EggerFormulas.
Section Sequence.
Variable es : list (R * R).

Definition n : R := IZR (Z.of_nat (length es)).
Definition x (e : R * R) : R := 1 / snd e.
Definition y (e : R * R) : R := fst e / snd e.
Definition mean_x : R := Formulas.sumR (map x es) / n.
Definition mean_y : R := Formulas.sumR (map y es) / n.
Definition Sxx : R := Formulas.sumR (map (fun e => (x e - mean_x) ^ 2) es).
Definition Sxy : R :=
  Formulas.sumR (map (fun e => (x e - mean_x) * (y e - mean_y)) es).
Definition slope : R := Sxy / Sxx.
Definition intercept : R := mean_y - slope * mean_x.
Definition sse : R :=
  Formulas.sumR (map (fun e => (y e - (intercept + slope * x e)) ^ 2) es).
Definition mse : R := sse / (n - 2).
Definition se_intercept : R := sqrt (mse * (1 / n + mean_x ^ 2 / Sxx)).

End Sequence.
End EggerFormulas.

(** The array of standard errors of a sequence of pairs [(yi, sei)]. *)
Definition seis (es : list (R * R)) : list num := map (fun e => Fin (snd e)) es.

(** ** Comparisons on floats *)

(** [x < y] on floats: false as soon as one side is NaN. *)
Definition fltb (x y : num) : bool :=
  match x, y with
  | Fin a, Fin b => Rltb a b
  | Fin _, PInf => true
  | NInf, Fin _ | NInf, PInf => true
  | _, _ => false
  end.

(** [x <= y] on floats. *)
Definition fleb (x y : num) : bool := fltb x y || feqb x y.

(** Python's [max(a, b)]: the first argument stays unless the second is
    strictly greater. *)
Definition py_max (a b : num) : num := if fltb a b then b else a.

(** ** scripts/compare-comprehensive.py *)

Module CompareComprehensive.

(** [1e-15] *)
Definition tiny : R := / 10 ^ 15.

(** [compare_values], lines 12-24.  [actual] and [expected] come from JSON:
    [None] is JSON's null.  The [name] argument is not used by the body. *)
Definition compare_values (actual expected : option num) (tol : num)
  : exc (bool * num) :=
  match expected, actual with
  | None, None => Ok (true, Fin 0)
  | None, Some _ | Some _, None => Ok (false, PInf)
  | Some expected, Some actual =>
      let diff := fabs (actual -. expected) in
      rel_diff <- (if negb (feqb expected (Fin 0))
                   then py_div diff (py_max (fabs expected) (Fin tiny))
                   else Ok diff) ;;
      if fltb diff tol || fltb rel_diff tol then Ok (true, diff)
      else Ok (false, diff)
  end.

End CompareComprehensive.

(** ** scripts/compare-results.py *)

Module CompareResults.

(** One dict appended to [results] by [check]. *)
Record check_entry := {
  metric : string;
  metareview : num;
  gold_standard : num;
  difference : num;
  tolerance : num;
  status : string;
  unit_label : string
}.

(** The two globals that [check] updates. *)
Record globals := {
  results : list check_entry;
  all_pass : bool
}.

(** Lines 37-38. *)
Definition initial : globals := {| results := []; all_pass := true |}.

(** [check], lines 40-54. *)
Definition check (name : string) (mr_val py_val tolerance : num)
    (unit : string) (g : globals) : globals :=
  let diff := fabs (mr_val -. py_val) in
  let passed := fleb diff tolerance in
  {| all_pass := if negb passed then false else all_pass g;
     results := results g ++
       [{| metric := name; metareview := mr_val; gold_standard := py_val;
           difference := diff; tolerance := tolerance;
           status := if passed then "PASS" else "FAIL";
           unit_label := unit |}] |}.

(** The arguments of one call of [check]. *)
Record call := {
  call_name : string;
  call_mr : num;
  call_py : num;
  call_tolerance : num;
  call_unit : string
}.

(** The calls of lines 57-90, in order. *)
Definition run (calls : list call) : globals :=
  fold_left (fun g c => check (call_name c) (call_mr c) (call_py c)
                          (call_tolerance c) (call_unit c) g)
            calls initial.

(** Lines 107-108: the counts of the summary. *)
Definition count_status (s : string) (rs : list check_entry) : nat :=
  length (filter (fun r => String.eqb (status r) s) rs).

Definition passed (g : globals) : nat := count_status "PASS" (results g).
Definition failed (g : globals) : nat := count_status "FAIL" (results g).

End CompareResults.

(** Example data: two studies that report the same effect, two hazard
    ratios, and three points on the line [yi = sei]. *)
Definition agreeing_studies : list (R * R) := [(0, 1); (0, 2)]%R.

Definition two_reports : list hr_report :=
  [ {| report_name := "A"; reported_hr := 1;
       reported_lower := 1 / 2; reported_upper := 2 |};
    {| report_name := "B"; reported_hr := 2;
       reported_lower := 1; reported_upper := 3 |} ].

Definition three_points : list (R * R) := [(1, 1); (2, 2); (3, 3)]%R.

(** The invariant of the globals of compare-results.py: [all_pass] is the
    conjunction of the recorded statuses, each PASS or FAIL. *)
Definition statuses_ok (g : CompareResults.globals) : Prop :=
  CompareResults.all_pass g
  = forallb (fun r => String.eqb (CompareResults.status r) "PASS")
            (CompareResults.results g) /\
  Forall (fun r => CompareResults.status r = "PASS"%string \/
                   CompareResults.status r = "FAIL"%string)
         (CompareResults.results g).

(** * Properties *)

(** ** Floats: finite arithmetic is real arithmetic *)

Lemma Reqb_true (x y : R) : x = y -> Reqb x y = true.
Proof. intros H. unfold Reqb. destruct (Req_dec_T x y); congruence. Qed.

Lemma Reqb_false (x y : R) : x <> y -> Reqb x y = false.
Proof. intros H. unfold Reqb. destruct (Req_dec_T x y); congruence. Qed.

Lemma Rltb_true (x y : R) : x < y -> Rltb x y = true.
Proof. intros H. unfold Rltb. destruct (Rlt_dec x y); [reflexivity | lra]. Qed.

Lemma Rltb_false (x y : R) : y <= x -> Rltb x y = false.
Proof. intros H. unfold Rltb. destruct (Rlt_dec x y); [lra | reflexivity]. Qed.

Lemma np_div_fin (a b : R) : b <> 0 -> Fin a /. Fin b = Fin (a / b).
Proof. intros H. simpl. now rewrite (Reqb_false b 0 H). Qed.

Lemma py_div_fin (a b : R) : b <> 0 -> py_div (Fin a) (Fin b) = Ok (Fin (a / b)).
Proof.
  intros H. unfold py_div. simpl feqb.
  rewrite (Reqb_false b 0 H). now rewrite np_div_fin.
Qed.

Lemma py_div_zero (x : num) : py_div x (Fin 0) = Raise ZeroDivisionError.
Proof. unfold py_div. simpl. now rewrite Reqb_true. Qed.

Lemma py_div_ok_iff (x y : num) :
  (exists q, py_div x y = Ok q) <-> y <> Fin 0.
Proof.
  unfold py_div. destruct y as [r | | |]; simpl;
    try (split; [discriminate | eauto]).
  unfold Reqb. destruct (Req_dec_T r 0) as [-> | Hr].
  - split; [intros [q Hq]; discriminate | congruence].
  - split; [congruence | eauto].
Qed.

Lemma np_sqrt_fin (r : R) : 0 <= r -> np_sqrt (Fin r) = Fin (sqrt r).
Proof. intros H. simpl. now rewrite Rltb_false. Qed.

Lemma np_log_fin (r : R) : 0 < r -> np_log (Fin r) = Fin (ln r).
Proof.
  intros H. simpl. rewrite Rltb_false by lra.
  rewrite Reqb_false by lra. reflexivity.
Qed.

Lemma py_max0_fin (r : R) : py_max0 (Fin r) = Fin (Rmax 0 r).
Proof.
  unfold py_max0, fgt0, Rltb, Rmax.
  destruct (Rlt_dec 0 r), (Rle_dec 0 r); try reflexivity; try lra.
  f_equal. lra.
Qed.

Lemma py_max0_nonneg (x : num) :
  py_max0 x = PInf \/ exists r, py_max0 x = Fin r /\ 0 <= r.
Proof.
  destruct x as [r | | |]; unfold py_max0; simpl; eauto using Rle_refl.
  unfold Rltb. destruct (Rlt_dec 0 r); right; eexists; split; eauto; lra.
Qed.

Lemma fgt0_fin (r : R) : fgt0 (Fin r) = if Rlt_dec 0 r then true else false.
Proof. reflexivity. Qed.

(** ** Arrays built from an effect-size sequence *)

Section Columns.
Context {A : Type}.
Implicit Types (es : list A) (g h : A -> num).

Lemma arr_map2_cols (f : num -> num -> num) g h es :
  arr_map2 f (map g es) (map h es) = map (fun e => f (g e) (h e)) es.
Proof.
  unfold arr_map2. induction es as [| e es IH]; simpl; [reflexivity |].
  now f_equal.
Qed.

Lemma arr_scalar_col (f : num -> num -> num) g es (s : num) :
  arr_scalar f (map g es) s = map (fun e => f (g e) s) es.
Proof. unfold arr_scalar. now rewrite map_map. Qed.

Lemma scalar_arr_col (f : num -> num -> num) g es (s : num) :
  scalar_arr f s (map g es) = map (fun e => f s (g e)) es.
Proof. unfold scalar_arr. now rewrite map_map. Qed.

Lemma np_sum_fin (r : A -> R) es :
  np_sum (map (fun e => Fin (r e)) es) = Fin (Formulas.sumR (map r es)).
Proof.
  induction es as [| e es IH]; [reflexivity |].
  change (Fin (r e) +. np_sum (map (fun e => Fin (r e)) es)
          = Fin (r e + Formulas.sumR (map r es))).
  now rewrite IH.
Qed.

Lemma map_fin_ext (P : A -> Prop) g (r : A -> R) es :
  Forall P es ->
  (forall e, P e -> g e = Fin (r e)) ->
  map g es = map (fun e => Fin (r e)) es.
Proof.
  intros HP Hg. induction HP as [| e es He _ IH]; simpl; [reflexivity |].
  now rewrite (Hg e He), IH.
Qed.

End Columns.

(** ** Sums of weights *)

Import Formulas.

Lemma sumR_app (l l' : list R) : sumR (l ++ l') = (sumR l + sumR l')%R.
Proof. induction l as [| x l IH]; simpl; [lra | rewrite IH; lra]. Qed.

Lemma sumR_perm (l l' : list R) : Permutation l l' -> sumR l = sumR l'.
Proof. induction 1; simpl; lra. Qed.

Lemma sumR_nonneg (l : list R) : Forall (fun x => 0 <= x) l -> 0 <= sumR l.
Proof. induction 1; simpl; lra. Qed.

Lemma sumR_pos (l : list R) :
  l <> [] -> Forall (fun x => 0 < x) l -> 0 < sumR l.
Proof.
  intros Hne H. destruct H as [| x l Hx Hl]; [congruence |].
  simpl. assert (0 <= sumR l).
  { apply sumR_nonneg. eapply Forall_impl; [| exact Hl]. simpl. intros; lra. }
  lra.
Qed.

Lemma sumR_scale (c : R) (l : list R) :
  sumR (map (fun x => x * c) l) = (sumR l * c)%R.
Proof. induction l as [| x l IH]; simpl; [lra | rewrite IH; lra]. Qed.

(** For at least two positive terms the square of the sum exceeds the sum of
    the squares. *)
Lemma sum_squares_lt (l : list R) :
  Forall (fun x => 0 < x) l -> (2 <= length l)%nat ->
  sumR (map (fun x => x ^ 2) l) < sumR l ^ 2.
Proof.
  intros H. induction H as [| x l Hx Hl IH]; simpl length; [lia |].
  intros Hlen. destruct l as [| y l].
  - simpl in Hlen. lia.
  - assert (Hs : 0 < sumR (y :: l)) by (apply sumR_pos; [discriminate | assumption]).
    assert (Hq : sumR (map (fun x => x ^ 2) (y :: l)) <= sumR (y :: l) ^ 2).
    { destruct l as [| z l].
      - simpl. lra.
      - apply Rlt_le, IH. simpl. lia. }
    change (x ^ 2 + sumR (map (fun x => x ^ 2) (y :: l))
            < (x + sumR (y :: l)) ^ 2).
    nra.
Qed.

Lemma positive_weights (t : R) (es : list (R * R)) :
  0 <= t -> positive_variances es ->
  Forall (fun x => 0 < x) (map (w_at t) es).
Proof.
  intros Ht H. apply Forall_map. eapply Forall_impl; [| exact H].
  intros e He. unfold w_at, vi. simpl in He.
  apply Rdiv_lt_0_compat; lra.
Qed.

Lemma w_at_0 (e : R * R) : w_at 0 e = w e.
Proof. unfold w_at, w. now rewrite Rplus_0_r. Qed.

Lemma sum_w_at_0 (es : list (R * R)) : sum_w_at es 0 = sum_w es.
Proof.
  unfold sum_w_at, sum_w. f_equal. apply map_ext. intros; apply w_at_0.
Qed.

Lemma sum_w_at_pos (t : R) (es : list (R * R)) :
  es <> [] -> 0 <= t -> positive_variances es -> 0 < sum_w_at es t.
Proof.
  intros Hne Ht H. apply sumR_pos.
  - destruct es; [congruence | discriminate].
  - now apply positive_weights.
Qed.

Lemma sum_w_pos (es : list (R * R)) :
  es <> [] -> positive_variances es -> 0 < sum_w es.
Proof.
  intros Hne H. rewrite <- sum_w_at_0. apply sum_w_at_pos; [assumption | lra | assumption].
Qed.

Lemma C_pos (es : list (R * R)) :
  (2 <= length es)%nat -> positive_variances es -> 0 < C es.
Proof.
  intros Hlen H.
  assert (Hne : es <> []) by (destruct es; [simpl in Hlen; lia | discriminate]).
  pose proof (sum_w_pos es Hne H) as Hs.
  assert (Hsq : sumR (map (fun e => w e ^ 2) es) < sum_w es ^ 2).
  { unfold sum_w.
    rewrite <- (map_map w (fun x => x ^ 2)).
    apply sum_squares_lt.
    - rewrite (map_ext _ _ (fun e => eq_sym (w_at_0 e))).
      apply positive_weights; [lra | assumption].
    - now rewrite length_map. }
  unfold C.
  apply Rmult_lt_reg_r with (r := sum_w es); [assumption |].
  rewrite Rmult_0_l.
  replace ((sum_w es - sumR (map (fun e => w e ^ 2) es) / sum_w es) * sum_w es)%R
    with (sum_w es ^ 2 - sumR (map (fun e => w e ^ 2) es))%R by (field; lra).
  lra.
Qed.

Lemma tau2_nonneg (es : list (R * R)) : 0 <= tau2 es.
Proof. unfold tau2. apply Rmax_l. Qed.

(** ** The arrays of the pooling code, evaluated on positive variances *)

Lemma weights_eval (t : R) (es : list (R * R)) :
  0 <= t -> positive_variances es ->
  scalar_arr np_div (Fin 1) (arr_scalar fadd (vis es) (Fin t))
  = map (fun e => Fin (w_at t e)) es.
Proof.
  intros Ht H. unfold vis. rewrite arr_scalar_col, scalar_arr_col.
  apply map_fin_ext with (P := fun e => 0 < snd e); [exact H |].
  intros e He. simpl fadd. rewrite np_div_fin by lra. reflexivity.
Qed.

Lemma fixed_weights_eval (es : list (R * R)) :
  positive_variances es ->
  scalar_arr np_div (Fin 1) (vis es) = map (fun e => Fin (w e)) es.
Proof.
  intros H. unfold vis. rewrite scalar_arr_col.
  apply map_fin_ext with (P := fun e => 0 < snd e); [exact H |].
  intros e He. rewrite np_div_fin by lra. reflexivity.
Qed.

Lemma weighted_sum_eval (g : R * R -> R) (es : list (R * R)) :
  np_sum (arr_map2 fmul (map (fun e => Fin (g e)) es) (yis es))
  = Fin (sumR (map (fun e => g e * yi e) es)).
Proof. unfold yis. rewrite arr_map2_cols. simpl fmul. apply np_sum_fin. Qed.

Lemma Q_eval (m : R) (es : list (R * R)) :
  np_sum (arr_map2 fmul (map (fun e => Fin (w e)) es)
            (map fsq (arr_scalar fsub (yis es) (Fin m))))
  = Fin (sumR (map (fun e => w e * (yi e - m) ^ 2) es)).
Proof.
  unfold yis. rewrite arr_scalar_col, map_map, arr_map2_cols.
  simpl fmul. rewrite np_sum_fin. do 2 f_equal.
  apply map_ext. intros e. unfold yi. ring.
Qed.

Lemma sum_squares_eval (g : R * R -> R) (es : list (R * R)) :
  np_sum (map fsq (map (fun e => Fin (g e)) es))
  = Fin (sumR (map (fun e => g e ^ 2) es)).
Proof.
  rewrite map_map. simpl fsq. rewrite np_sum_fin. do 2 f_equal.
  apply map_ext. intros e. ring.
Qed.

Lemma weight_pct_eval (g : R * R -> R) (s : R) (es : list (R * R)) :
  s <> 0 ->
  arr_scalar fmul (arr_scalar np_div (map (fun e => Fin (g e)) es) (Fin s))
    (Fin 100)
  = map (fun e => Fin (g e / s * 100)) es.
Proof.
  intros Hs. rewrite !arr_scalar_col. apply map_ext. intros e.
  now rewrite np_div_fin.
Qed.

(** ** Evaluation of the three pooling codes *)

Lemma fsub_fin (a b : R) : Fin a -. Fin b = Fin (a - b).
Proof. reflexivity. Qed.

Lemma length_yis (es : list (R * R)) : length (yis es) = length es.
Proof. apply length_map. Qed.

Lemma summary_at_0 (es : list (R * R)) : summary_at es 0 = ybar es.
Proof.
  unfold summary_at, ybar. rewrite sum_w_at_0. f_equal. f_equal.
  apply map_ext. intros e. now rewrite w_at_0.
Qed.

Lemma se_at_0 (es : list (R * R)) : se_at es 0 = se_fixed es.
Proof. unfold se_at, se_fixed. now rewrite sum_w_at_0. Qed.

Lemma weights_at_0 (es : list (R * R)) :
  weights_at es 0 = map (fun e => Fin (w e / sum_w es * 100)) es.
Proof.
  unfold weights_at, weight_pct_at. rewrite sum_w_at_0.
  apply map_ext. intros e. now rewrite w_at_0.
Qed.

Lemma se_at_pos (t : R) (es : list (R * R)) :
  es <> [] -> 0 <= t -> positive_variances es -> 0 < se_at es t.
Proof.
  intros Hne Ht H. unfold se_at. apply sqrt_lt_R0.
  apply Rdiv_lt_0_compat; [lra | now apply sum_w_at_pos].
Qed.

Lemma I2_eval (es : list (R * R)) :
  (if fgt0 (Fin (Q es))
   then r <- py_div (Fin (Q es - IZR (df es))) (Fin (Q es)) ;;
        Ok (py_max0 (r *. Fin 100))
   else Ok (Fin 0))
  = Ok (Fin (I2 es)).
Proof.
  rewrite fgt0_fin. unfold I2. destruct (Rlt_dec 0 (Q es)) as [HQ | HQ].
  - rewrite py_div_fin by lra. cbn [bind fmul]. now rewrite py_max0_fin.
  - reflexivity.
Qed.

Lemma I2_eval_np (es : list (R * R)) :
  (if fgt0 (Fin (Q es))
   then py_max0 (Fin (Q es - IZR (df es)) /. Fin (Q es) *. Fin 100)
   else Fin 0)
  = Fin (I2 es).
Proof.
  rewrite fgt0_fin. unfold I2. destruct (Rlt_dec 0 (Q es)) as [HQ | HQ].
  - rewrite np_div_fin by lra. cbn [fmul]. now rewrite py_max0_fin.
  - reflexivity.
Qed.

Ltac pooling_facts es Hlen Hpos :=
  let Hne := fresh "Hne" in
  assert (Hne : es <> []) by (destruct es; [simpl in Hlen; lia | discriminate]);
  pose proof (sum_w_pos es Hne Hpos);
  pose proof (C_pos es Hlen Hpos);
  pose proof (tau2_nonneg es);
  pose proof (sum_w_at_pos (tau2 es) es Hne (tau2_nonneg es) Hpos);
  pose proof (se_at_pos 0 es Hne (Rle_refl 0) Hpos);
  pose proof (se_at_pos (tau2 es) es Hne (tau2_nonneg es) Hpos);
  assert (0 < df es)%Z by (unfold df, k; lia);
  assert (0 < IZR (df es)) by (apply IZR_lt; unfold df, k; lia).

Lemma comprehensive_eval stats es model :
  (2 <= length es)%nat -> positive_variances es ->
  Comprehensive.meta_analysis stats (yis es) (vis es) model
  = Ok (comprehensive_result stats es model).
Proof.
  intros Hlen Hpos. pooling_facts es Hlen Hpos.
  unfold Comprehensive.meta_analysis. cbv zeta.
  rewrite length_yis. fold (k es). fold (df es).
  destruct (Z.leb_spec (df es) 0) as [Hle | _]; [lia |].
  destruct (Z.gtb_spec (df es) 0) as [_ | Hle]; [| lia].
  rewrite !fixed_weights_eval by assumption.
  rewrite !np_sum_fin. fold (sum_w es).
  rewrite !weighted_sum_eval, !np_div_fin by lra. fold (ybar es).
  rewrite !Q_eval. fold (Q es).
  rewrite !sum_squares_eval, !np_div_fin by lra.
  unfold of_int. rewrite !fsub_fin. fold (C es).
  rewrite py_div_fin by lra. cbn [bind].
  rewrite !py_max0_fin. fold (tau2 es).
  rewrite I2_eval. cbn [bind].
  rewrite py_div_fin by lra. cbn [bind]. fold (H2 es).
  rewrite !weights_eval by assumption.
  rewrite !np_sum_fin. fold (sum_w_at es (tau2 es)).
  rewrite !weighted_sum_eval, !np_div_fin by lra.
  fold (summary_at es (tau2 es)).
  rewrite !np_sqrt_fin
    by (try apply tau2_nonneg; apply Rlt_le, Rdiv_lt_0_compat; lra).
  fold (se_at es (tau2 es)). fold (se_fixed es). fold (tau es).
  rewrite !weight_pct_eval by lra.
  rewrite <- weights_at_0, <- summary_at_0, <- se_at_0.
  unfold comprehensive_result, model_tau2.
  destruct (String.eqb model "fixed").
  - rewrite py_div_fin by lra. reflexivity.
  - rewrite py_div_fin by lra. reflexivity.
Qed.

Lemma hr_eval stats es model :
  (2 <= length es)%nat -> positive_variances es ->
  HR.pool stats (yis es) (vis es) model = Ok (hr_result stats es model).
Proof.
  intros Hlen Hpos. pooling_facts es Hlen Hpos.
  unfold HR.pool. cbv zeta.
  rewrite length_yis. fold (k es). fold (df es).
  destruct (Z.leb_spec (df es) 0) as [Hle | _]; [lia |].
  rewrite !fixed_weights_eval by assumption.
  rewrite !np_sum_fin. fold (sum_w es).
  rewrite !weighted_sum_eval, !np_div_fin by lra. fold (ybar es).
  rewrite py_div_fin by lra. cbn [bind].
  rewrite !Q_eval. fold (Q es).
  rewrite !sum_squares_eval, py_div_fin by lra. cbn [bind].
  unfold of_int. rewrite !fsub_fin. fold (C es).
  rewrite py_div_fin by lra. cbn [bind].
  rewrite !py_max0_fin. fold (tau2 es).
  rewrite I2_eval. cbn [bind].
  rewrite py_div_fin by lra. cbn [bind]. fold (H2 es).
  rewrite !weights_eval by assumption.
  rewrite !np_sum_fin. fold (sum_w_at es (tau2 es)).
  rewrite !weighted_sum_eval, !np_div_fin by lra.
  fold (summary_at es (tau2 es)).
  rewrite py_div_fin by lra. cbn [bind].
  rewrite !np_sqrt_fin
    by (try apply tau2_nonneg; apply Rlt_le, Rdiv_lt_0_compat; lra).
  fold (se_at es (tau2 es)). fold (se_fixed es). fold (tau es).
  rewrite !weight_pct_eval by lra.
  rewrite <- summary_at_0, <- se_at_0.
  unfold hr_result, model_tau2.
  destruct (String.eqb model "fixed"); cbn [bind];
    rewrite !py_div_fin by lra; reflexivity.
Qed.

Lemma gold_eval stats es :
  (2 <= length es)%nat -> positive_variances es ->
  GoldStandard.steps_2_to_4 stats (yis es) (vis es) = gold_result stats es.
Proof.
  intros Hlen Hpos. pooling_facts es Hlen Hpos.
  unfold GoldStandard.steps_2_to_4. cbv zeta.
  rewrite length_yis. fold (k es). fold (df es).
  destruct (Z.gtb_spec (df es) 0) as [_ | Hle]; [| lia].
  rewrite !fixed_weights_eval by assumption.
  rewrite !np_sum_fin. fold (sum_w es).
  rewrite !weighted_sum_eval, !np_div_fin by lra. fold (ybar es).
  rewrite !Q_eval. fold (Q es).
  rewrite !sum_squares_eval, !np_div_fin by lra.
  unfold of_int. rewrite !fsub_fin. fold (C es).
  rewrite I2_eval_np.
  rewrite !np_div_fin by lra. fold (H2 es).
  rewrite !py_max0_fin. fold (tau2 es).
  rewrite !weights_eval by assumption.
  rewrite !np_sum_fin. fold (sum_w_at es (tau2 es)).
  rewrite !weighted_sum_eval, !np_div_fin by lra.
  fold (summary_at es (tau2 es)).
  rewrite !np_sqrt_fin
    by (try apply tau2_nonneg; apply Rlt_le, Rdiv_lt_0_compat; lra).
  fold (se_at es (tau2 es)). fold (se_fixed es). fold (tau es).
  rewrite !weight_pct_eval, !np_div_fin by lra.
  rewrite <- weights_at_0, <- summary_at_0, <- se_at_0.
  reflexivity.
Qed.

(** ** Order independence of the formulas *)

Section Permuted.
Variables es es' : list (R * R).
Hypothesis Hperm : Permutation es es'.

Lemma sumR_map_perm (g : R * R -> R) : sumR (map g es) = sumR (map g es').
Proof. apply sumR_perm. now apply Permutation_map. Qed.

Lemma df_perm : df es = df es'.
Proof. unfold df, k. now rewrite (Permutation_length Hperm). Qed.

Lemma sum_w_perm : sum_w es = sum_w es'.
Proof. apply sumR_map_perm. Qed.

Lemma ybar_perm : ybar es = ybar es'.
Proof. unfold ybar. now rewrite sum_w_perm, sumR_map_perm. Qed.

Lemma Q_perm : Q es = Q es'.
Proof. unfold Q. now rewrite ybar_perm, sumR_map_perm. Qed.

Lemma C_perm : C es = C es'.
Proof. unfold C. now rewrite sum_w_perm, sumR_map_perm. Qed.

Lemma tau2_perm : tau2 es = tau2 es'.
Proof. unfold tau2. now rewrite Q_perm, C_perm, df_perm. Qed.

Lemma I2_perm : I2 es = I2 es'.
Proof. unfold I2. now rewrite Q_perm, df_perm. Qed.

Lemma H2_perm : H2 es = H2 es'.
Proof. unfold H2. now rewrite Q_perm, df_perm. Qed.

Lemma het_formulas_perm (stats : scipy_stats) :
  het_formulas stats es = het_formulas stats es'.
Proof.
  unfold het_formulas, tau.
  now rewrite Q_perm, df_perm, tau2_perm, I2_perm, H2_perm.
Qed.

End Permuted.

(** ** Weight percentages *)

Lemma sumR_map_scale (g : R * R -> R) (c : R) (es : list (R * R)) :
  sumR (map (fun e => g e * c) es) = (sumR (map g es) * c)%R.
Proof. induction es as [| e es IH]; simpl; [lra | rewrite IH; lra]. Qed.

Lemma weights_at_sum (t : R) (es : list (R * R)) :
  es <> [] -> 0 <= t -> positive_variances es ->
  np_sum (weights_at es t) = Fin 100.
Proof.
  intros Hne Ht Hpos. pose proof (sum_w_at_pos t es Hne Ht Hpos) as Hs.
  unfold weights_at. rewrite np_sum_fin. f_equal.
  unfold weight_pct_at.
  rewrite (map_ext _ (fun e => w_at t e * (/ sum_w_at es t * 100))%R)
    by (intros e; unfold Rdiv; ring).
  rewrite sumR_map_scale. fold (sum_w_at es t). field. lra.
Qed.

Lemma sums_to_100_exact (l : list num) : np_sum l = Fin 100 -> sums_to_100 l.
Proof.
  intros H. exists 100. split; [assumption |].
  replace (100 - 100)%R with 0%R by ring. rewrite Rabs_R0. lra.
Qed.

(** ** At most one study *)

Lemma comprehensive_single stats (y v : num) model :
  Comprehensive.meta_analysis stats [y] [v] model
  = Ok [("summary", PyFloat (((Fin 1 /. v) *. y +. Fin 0) /. (Fin 1 /. v +. Fin 0)));
        ("se", PyFloat (np_sqrt (Fin 1 /. (Fin 1 /. v +. Fin 0))));
        ("heterogeneity", PyDict Comprehensive.het_degenerate);
        ("weights_fe", floats [(Fin 1 /. v) /. (Fin 1 /. v +. Fin 0) *. Fin 100]);
        ("weights_re", floats [(Fin 1 /. v) /. (Fin 1 /. v +. Fin 0) *. Fin 100])]%string.
Proof. reflexivity. Qed.

Lemma comprehensive_empty stats model :
  exists s se,
  Comprehensive.meta_analysis stats [] [] model
  = Ok [("summary", PyFloat s);
        ("se", PyFloat se);
        ("heterogeneity", PyDict Comprehensive.het_degenerate);
        ("weights_fe", floats []);
        ("weights_re", floats [])]%string.
Proof. do 2 eexists. reflexivity. Qed.

Lemma py_div_nonzero (x : num) (b : R) :
  b <> 0 -> py_div x (Fin b) = Ok (x /. Fin b).
Proof. intros H. unfold py_div. simpl feqb. now rewrite Reqb_false. Qed.

Lemma comprehensive_eval_single stats (e : R * R) model :
  0 < snd e ->
  Comprehensive.meta_analysis stats (yis [e]) (vis [e]) model
  = Ok [("summary", PyFloat (Fin (summary_at [e] 0)));
        ("se", PyFloat (Fin (se_at [e] 0)));
        ("heterogeneity", PyDict Comprehensive.het_degenerate);
        ("weights_fe", floats (weights_at [e] 0));
        ("weights_re", floats (weights_at [e] 0))]%string.
Proof.
  intros He.
  assert (Hpos : positive_variances [e]) by (repeat constructor; exact He).
  assert (Hne : [e] <> []) by discriminate.
  pose proof (sum_w_pos [e] Hne Hpos) as Hs.
  unfold Comprehensive.meta_analysis. cbv zeta.
  rewrite length_yis. cbn [length Z.of_nat Z.leb Z.sub Z.compare].
  change (Z.pos (Pos.of_succ_nat 0) - 1 <=? 0)%Z with true. cbv iota.
  rewrite !fixed_weights_eval by assumption.
  rewrite !np_sum_fin. fold (sum_w [e]).
  rewrite !weighted_sum_eval, !np_div_fin by lra. fold (ybar [e]).
  rewrite np_sqrt_fin by (apply Rlt_le, Rdiv_lt_0_compat; lra).
  fold (se_fixed [e]).
  rewrite !weight_pct_eval by lra.
  now rewrite <- weights_at_0, <- summary_at_0, <- se_at_0.
Qed.

Lemma hr_single stats (y : num) (v : R) model :
  0 < v ->
  exists pooled fixed w,
    HR.pool stats [y] [Fin v] model
    = Ok {| HR.pooled := pooled; HR.fixed := fixed;
            HR.het := HR.het_degenerate; HR.weights_re_pct := w |}.
Proof.
  intros Hv. unfold HR.pool. cbv zeta.
  cbn [length]. change (Z.of_nat 1 - 1 <=? 0)%Z with true. cbv iota.
  unfold scalar_arr. cbn [map]. rewrite np_div_fin by lra.
  change (np_sum [Fin (1 / v)]) with (Fin (1 / v + 0)).
  assert (Hw : 0 < 1 / v + 0).
  { rewrite Rplus_0_r. apply Rdiv_lt_0_compat; lra. }
  rewrite py_div_fin by lra. cbn [bind].
  assert (Hi : 0 < 1 / (1 / v + 0)) by (apply Rdiv_lt_0_compat; lra).
  rewrite np_sqrt_fin by lra.
  assert (Hse : sqrt (1 / (1 / v + 0)) <> 0).
  { apply Rgt_not_eq, sqrt_lt_R0, Hi. }
  rewrite !py_div_nonzero by exact Hse. cbn [bind].
  do 3 eexists. reflexivity.
Qed.

(** A single study agrees with itself: [Q] and [C] vanish. *)
Lemma Q_single (e : R * R) : 0 < snd e -> Q [e] = 0%R.
Proof.
  intros He. unfold Q, ybar, sum_w, w, yi, vi. simpl.
  assert (1 / snd e <> 0)
    by (apply Rgt_not_eq, Rdiv_lt_0_compat; lra).
  field. lra.
Qed.

Lemma C_single (e : R * R) : 0 < snd e -> C [e] = 0%R.
Proof.
  intros He. unfold C, sum_w, w, vi. simpl.
  assert (1 / snd e <> 0)
    by (apply Rgt_not_eq, Rdiv_lt_0_compat; lra).
  field. lra.
Qed.

Lemma gold_single_tau2 stats (e : R * R) :
  0 < snd e ->
  GoldStandard.Q (GoldStandard.steps_2_to_4 stats (yis [e]) (vis [e]))
  = Fin 0 /\
  GoldStandard.df (GoldStandard.steps_2_to_4 stats (yis [e]) (vis [e]))
  = 0%Z /\
  GoldStandard.tau2 (GoldStandard.steps_2_to_4 stats (yis [e]) (vis [e]))
  = Fin 0.
Proof.
  intros He.
  assert (Hpos : positive_variances [e]) by (repeat constructor; exact He).
  assert (Hne : [e] <> []) by discriminate.
  pose proof (sum_w_pos [e] Hne Hpos) as Hs.
  unfold GoldStandard.steps_2_to_4. cbv zeta.
  cbn [GoldStandard.Q GoldStandard.df GoldStandard.tau2].
  rewrite length_yis.
  rewrite !fixed_weights_eval by assumption.
  rewrite !np_sum_fin. fold (sum_w [e]).
  rewrite !weighted_sum_eval, !np_div_fin by lra. fold (ybar [e]).
  rewrite !Q_eval. fold (Q [e]).
  rewrite !sum_squares_eval, !np_div_fin by lra.
  unfold of_int. rewrite !fsub_fin. fold (C [e]).
  rewrite Q_single, C_single by assumption.
  split; [reflexivity | split; [reflexivity |]].
  cbn [length Z.of_nat]. unfold np_div.
  rewrite !Reqb_true by (simpl; lra). reflexivity.
Qed.

(** ** Non-finite values propagate *)

Lemma np_div_zero_not_finite (x : num) : ~ is_finite (x /. Fin 0).
Proof.
  destruct x as [a | | |]; simpl; try tauto.
  - rewrite Reqb_true by reflexivity.
    destruct (Reqb a 0), (Rltb 0 a); simpl; tauto.
  - rewrite Rltb_false by lra. simpl; tauto.
  - rewrite Rltb_false by lra. simpl; tauto.
Qed.

Lemma np_div_not_finite_l (x y : num) : ~ is_finite x -> ~ is_finite (x /. y).
Proof.
  destruct x as [a | | |], y as [b | | |]; simpl; try tauto;
    destruct (Rltb b 0); simpl; tauto.
Qed.

Lemma np_div_nan_r (x : num) : x /. NaN = NaN.
Proof. now destruct x. Qed.

Lemma inf_times_not_finite (s : bool) (r : R) : ~ is_finite (inf_times s r).
Proof.
  unfold inf_times. destruct (Reqb r 0); [simpl; tauto |].
  destruct (Bool.eqb s (Rltb 0 r)); simpl; tauto.
Qed.

Lemma fmul_not_finite_l (x y : num) : ~ is_finite x -> ~ is_finite (x *. y).
Proof.
  destruct x as [a | | |], y as [b | | |]; simpl; try tauto;
    intros _; apply inf_times_not_finite.
Qed.

Lemma fmul_not_finite_r (x y : num) : ~ is_finite y -> ~ is_finite (x *. y).
Proof.
  destruct x as [a | | |], y as [b | | |]; simpl; try tauto;
    intros _; apply inf_times_not_finite.
Qed.

Lemma fneg_not_finite (x : num) : ~ is_finite x -> ~ is_finite (fneg x).
Proof. destruct x; simpl; tauto. Qed.

Lemma fadd_not_finite_l (x y : num) : ~ is_finite x -> ~ is_finite (x +. y).
Proof. destruct x, y; simpl; tauto. Qed.

Lemma fadd_not_finite_r (x y : num) : ~ is_finite y -> ~ is_finite (x +. y).
Proof. destruct x, y; simpl; tauto. Qed.

Lemma fsub_not_finite_r (x y : num) : ~ is_finite y -> ~ is_finite (x -. y).
Proof. intros H. apply fadd_not_finite_r, fneg_not_finite, H. Qed.

Lemma fsq_not_finite (x : num) : ~ is_finite x -> ~ is_finite (fsq x).
Proof. intros H. now apply fmul_not_finite_l. Qed.

Lemma np_sqrt_not_finite (x : num) : ~ is_finite x -> ~ is_finite (np_sqrt x).
Proof. destruct x; simpl; tauto. Qed.

(** ** Egger's regression on fewer than three studies *)

Lemma py_div_int (x : num) (z : Z) :
  z <> 0%Z -> py_div x (of_int z) = Ok (x /. of_int z).
Proof.
  intros Hz. unfold py_div, of_int. simpl feqb.
  rewrite Reqb_false; [reflexivity |].
  intros H. apply Hz. now apply eq_IZR.
Qed.

Lemma eggers_test_two stats (y1 y2 s1 s2 : num) :
  exists r,
    GoldStandard.eggers_test stats [y1; y2] [s1; s2] = Ok r /\
    GoldStandard.df_egger r = 0%Z /\
    ~ is_finite (GoldStandard.se_intercept r).
Proof.
  unfold GoldStandard.eggers_test. cbv zeta.
  cbn [length scalar_arr map].
  rewrite py_div_int by discriminate. cbn [bind].
  eexists. split; [reflexivity |]. cbn [GoldStandard.df_egger GoldStandard.se_intercept].
  split; [reflexivity |].
  apply np_sqrt_not_finite, fmul_not_finite_l.
  apply np_div_zero_not_finite.
Qed.

(** With one study the centred sum [Sxx] is zero or NaN, so the slope is
    not finite. *)
Lemma slope_single_not_finite (x sxy : num) :
  ~ is_finite (sxy /. np_sum (map fsq (arr_scalar fsub [x] (np_mean [x])))).
Proof.
  unfold np_mean, np_sum, arr_scalar. cbn [length map fold_right Z.of_nat].
  destruct x as [a | | |].
  - unfold of_int. cbn [fadd]. rewrite np_div_fin by (simpl; lra).
    cbn [fsub fneg fadd fsq fmul].
    match goal with
    | |- ~ is_finite (_ /. Fin ?r) => replace r with 0%R by (simpl; field)
    end.
    apply np_div_zero_not_finite.
  - unfold of_int. simpl. rewrite Rltb_false by lra. simpl.
    rewrite np_div_nan_r. simpl; tauto.
  - unfold of_int. simpl. rewrite Rltb_false by lra. simpl.
    rewrite np_div_nan_r. simpl; tauto.
  - simpl. rewrite np_div_nan_r. simpl; tauto.
Qed.

Lemma eggers_test_one stats (y s : num) :
  exists r,
    GoldStandard.eggers_test stats [y] [s] = Ok r /\
    GoldStandard.df_egger r = (-1)%Z /\
    ~ is_finite (GoldStandard.se_intercept r).
Proof.
  unfold GoldStandard.eggers_test. cbv zeta.
  cbn [length scalar_arr map].
  rewrite py_div_int by discriminate. cbn [bind].
  eexists. split; [reflexivity |].
  cbn [GoldStandard.df_egger GoldStandard.se_intercept].
  split; [reflexivity |].
  apply np_sqrt_not_finite, fmul_not_finite_l, np_div_not_finite_l.
  unfold arr_map2 at 1. cbn [combine map fst snd].
  unfold np_sum at 1. cbn [map fold_right].
  apply fadd_not_finite_l, fsq_not_finite, fsub_not_finite_r.
  apply fadd_not_finite_l, fsub_not_finite_r, fmul_not_finite_l.
  apply slope_single_not_finite.
Qed.

Lemma py_div_int_zero (x : num) :
  py_div x (of_int 0) = Raise ZeroDivisionError.
Proof. apply py_div_zero. Qed.

Lemma eggers_test_empty stats :
  GoldStandard.eggers_test stats [] [] = Raise ZeroDivisionError.
Proof.
  unfold GoldStandard.eggers_test. cbv zeta.
  cbn [length scalar_arr map Z.of_nat].
  now rewrite py_div_int_zero.
Qed.

Lemma py_div_fin_zero (x : num) (r : R) :
  r = 0%R -> py_div x (Fin r) = Raise ZeroDivisionError.
Proof. intros ->. apply py_div_zero. Qed.

(** ** Effect sizes: divisions by zero *)

Lemma gold_log_odds_ratio_zero_cell (events1 total1 events2 total2 : Z) :
  (events1 = 0 \/ total1 - events1 = 0 \/
   events2 = 0 \/ total2 - events2 = 0)%Z ->
  GoldStandard.log_odds_ratio events1 total1 events2 total2
  = Raise ZeroDivisionError.
Proof.
  unfold GoldStandard.log_odds_ratio. cbv zeta.
  generalize dependent (total2 - events2)%Z. intros d.
  generalize dependent (total1 - events1)%Z. intros b.
  revert events1 events2. intros a c Hzero.
  destruct (Z.eq_dec (b * c) 0) as [Hbc | Hbc].
  { rewrite Hbc, py_div_int_zero. reflexivity. }
  rewrite py_div_int by exact Hbc. cbn [bind].
  destruct (Z.eq_dec a 0) as [-> | Ha]; [now rewrite py_div_int_zero |].
  rewrite py_div_int by exact Ha. cbn [bind].
  destruct (Z.eq_dec b 0) as [-> | Hb]; [now rewrite py_div_int_zero |].
  rewrite py_div_int by exact Hb. cbn [bind].
  destruct (Z.eq_dec c 0) as [-> | Hc]; [now rewrite py_div_int_zero |].
  rewrite py_div_int by exact Hc. cbn [bind].
  destruct (Z.eq_dec d 0) as [-> | Hd]; [now rewrite py_div_int_zero |].
  lia.
Qed.

Lemma hedges_g_small_sample (mean1 sd1 mean2 sd2 : num) (n1 n2 : Z) :
  (0 <= n1)%Z -> (0 <= n2)%Z -> (n1 + n2 - 2 <= 0)%Z ->
  Comprehensive.hedges_g mean1 sd1 (of_int n1) mean2 sd2 (of_int n2)
  = Raise ZeroDivisionError.
Proof.
  intros H1 H2 Hdf. unfold Comprehensive.hedges_g. cbv zeta.
  unfold of_int. cbn [fadd fsub fneg fmul].
  destruct (Z.eq_dec (n1 + n2) 2) as [Heq | Hne].
  - rewrite py_div_fin_zero; [reflexivity |].
    rewrite <- plus_IZR, Heq. simpl. lra.
  - assert (Hsmall : (n1 + n2 = 0 \/ n1 + n2 = 1)%Z) by lia.
    assert (Hprod : (n1 * n2 = 0)%Z) by nia.
    assert (HR : (IZR n1 + IZR n2 = 0 \/ IZR n1 + IZR n2 = 1)%R).
    { rewrite <- plus_IZR. destruct Hsmall as [-> | ->]; [left | right]; reflexivity. }
    rewrite py_div_nonzero by (destruct HR as [-> | ->]; lra).
    cbn [bind].
    rewrite py_div_nonzero by (destruct HR as [-> | ->]; lra).
    cbn [bind].
    rewrite (py_div_fin_zero _ (IZR n1 * IZR n2)); [reflexivity |].
    rewrite <- mult_IZR, Hprod. reflexivity.
Qed.

(** A zero pooled standard deviation is a numpy division: it does not
    raise. *)
Lemma hedges_g_zero_sd (mean1 mean2 : R) (n1 n2 : Z) :
  (1 <= n1)%Z -> (1 <= n2)%Z -> (3 <= n1 + n2)%Z ->
  exists yi sei,
    Comprehensive.hedges_g (Fin mean1) (Fin 0) (of_int n1)
                           (Fin mean2) (Fin 0) (of_int n2)
    = Ok (yi, sei) /\
    ~ is_finite yi /\ ~ is_finite sei.
Proof.
  intros H1 H2 H3. unfold Comprehensive.hedges_g. cbv zeta.
  unfold of_int. cbn [fadd fsub fneg fmul fsq].
  assert (Hn1 : 1 <= IZR n1) by (now apply IZR_le).
  assert (Hn2 : 1 <= IZR n2) by (now apply IZR_le).
  assert (Hn : 3 <= IZR n1 + IZR n2)
    by (rewrite <- plus_IZR; now apply IZR_le).
  rewrite py_div_fin by lra. cbn [bind].
  assert (H4 : 4 * (IZR n1 + IZR n2 + - (2)) + - (1) <> 0) by lra.
  rewrite py_div_fin by exact H4. cbn [bind].
  rewrite py_div_fin by nra. cbn [bind].
  do 2 eexists. split; [reflexivity |].
  assert (Hd : ~ is_finite
                 (Fin (mean1 + - mean2) /.
                  np_sqrt (Fin (((IZR n1 + - (1)) * (0 * 0)
                                 + (IZR n2 + - (1)) * (0 * 0))
                                / (IZR n1 + IZR n2 + - (2)))))).
  { match goal with
    | |- ~ is_finite (_ /. np_sqrt (Fin ?r)) =>
        replace r with 0%R by (field; lra)
    end.
    rewrite np_sqrt_fin by lra. rewrite sqrt_0.
    apply np_div_zero_not_finite. }
  split.
  - apply fmul_not_finite_l, Hd.
  - apply fmul_not_finite_l, np_sqrt_not_finite, fadd_not_finite_r.
    apply np_div_not_finite_l, fsq_not_finite, fmul_not_finite_l, Hd.
Qed.

(** ** Zero-cell correction *)

Lemma half_integer_nonzero (z : Z) : IZR z + 0.5 <> 0.
Proof.
  intros H. assert (Hz : IZR (2 * z + 1) = 0%R).
  { rewrite plus_IZR, mult_IZR. simpl. lra. }
  apply eq_IZR in Hz. lia.
Qed.

Lemma half_integer_not_integer (z t : Z) : IZR z + 0.5 <> IZR t + 1.
Proof.
  intros H. assert (Hz : IZR (2 * z + 1) = IZR (2 * t + 2)).
  { rewrite !plus_IZR, !mult_IZR. simpl. lra. }
  apply eq_IZR in Hz. lia.
Qed.

Lemma correct_zero_cells_corrected (events1 total1 events2 total2 : Z) :
  Comprehensive.correct_zero_cells
    (of_int events1 +. Fin 0.5) (of_int total1 +. Fin 1)
    (of_int events2 +. Fin 0.5) (of_int total2 +. Fin 1)
  = (of_int events1 +. Fin 0.5, of_int total1 +. Fin 1,
     of_int events2 +. Fin 0.5, of_int total2 +. Fin 1).
Proof.
  unfold Comprehensive.correct_zero_cells, of_int. cbn [fadd feqb].
  rewrite !Reqb_false
    by (apply half_integer_nonzero || apply half_integer_not_integer).
  reflexivity.
Qed.

Lemma correct_zero_cells_idempotent (events1 total1 events2 total2 : Z) :
  let '(e1, t1, e2, t2) :=
    Comprehensive.correct_zero_cells (of_int events1) (of_int total1)
                                     (of_int events2) (of_int total2) in
  Comprehensive.correct_zero_cells e1 t1 e2 t2 = (e1, t1, e2, t2).
Proof.
  unfold Comprehensive.correct_zero_cells at 1.
  destruct (negb _) eqn:Hz.
  - unfold Comprehensive.correct_zero_cells. now rewrite Hz.
  - apply correct_zero_cells_corrected.
Qed.

(** ** The truncated DerSimonian-Laird estimate *)

Lemma tau2_zero_when_Q_le_df (es : list (R * R)) :
  0 < C es -> Q es <= IZR (df es) -> tau2 es = 0%R.
Proof.
  intros HC HQ. unfold tau2. apply Rmax_left.
  pose proof (Rinv_0_lt_compat _ HC) as Hi.
  unfold Rdiv. nra.
Qed.

Lemma gold_empty_tau2 stats :
  GoldStandard.Q (GoldStandard.steps_2_to_4 stats [] []) = Fin 0 /\
  GoldStandard.df (GoldStandard.steps_2_to_4 stats [] []) = (-1)%Z /\
  GoldStandard.tau2 (GoldStandard.steps_2_to_4 stats [] []) = Fin 0.
Proof.
  unfold GoldStandard.steps_2_to_4. cbv zeta.
  cbn [GoldStandard.Q GoldStandard.df GoldStandard.tau2].
  split; [reflexivity | split; [reflexivity |]].
  cbn [length scalar_arr map np_sum fold_right Z.of_nat].
  assert (H0 : Fin 0 /. Fin 0 = NaN).
  { unfold np_div. now rewrite !Reqb_true by reflexivity. }
  rewrite H0. cbn [fsub fneg fadd]. now rewrite np_div_nan_r.
Qed.

Lemma comprehensive_tau2_truncated stats es model :
  positive_variances es ->
  exists d h q dfz t,
    Comprehensive.meta_analysis stats (yis es) (vis es) model = Ok d /\
    dict_sub "heterogeneity" d = Some h /\
    dict_num "Q" h = Some q /\ dict_get "df" h = Some (PyInt dfz) /\
    dict_num "tau2" h = Some t /\
    tau2_truncated q dfz t.
Proof.
  intros Hpos. destruct es as [| e1 [| e2 es]].
  - change (yis []) with (@nil num). change (vis []) with (@nil num).
    destruct (comprehensive_empty stats model) as (s & se & ->).
    do 5 eexists. repeat (split; [reflexivity |]).
    exists 0%R, 0%R. repeat split; try reflexivity; lra.
  - rewrite comprehensive_eval_single by (now inversion Hpos).
    do 5 eexists. repeat (split; [reflexivity |]).
    exists 0%R, 0%R. repeat split; try reflexivity; lra.
  - assert (Hlen : (2 <= length (e1 :: e2 :: es))%nat) by (simpl; lia).
    rewrite comprehensive_eval by assumption.
    do 5 eexists. repeat (split; [reflexivity |]).
    do 2 eexists. repeat (split; [reflexivity |]).
    split; [apply tau2_nonneg |].
    apply tau2_zero_when_Q_le_df. now apply C_pos.
Qed.

Lemma gold_tau2_truncated stats es :
  positive_variances es ->
  let g := GoldStandard.steps_2_to_4 stats (yis es) (vis es) in
  tau2_truncated (GoldStandard.Q g) (GoldStandard.df g) (GoldStandard.tau2 g).
Proof.
  intros Hpos. cbv zeta. destruct es as [| e1 [| e2 es]].
  - destruct (gold_empty_tau2 stats) as (HQ & Hdf & Ht).
    change (yis []) with (@nil num). change (vis []) with (@nil num).
    rewrite HQ, Hdf, Ht. exists 0%R, 0%R.
    repeat split; try reflexivity; lra.
  - destruct (gold_single_tau2 stats e1) as (HQ & Hdf & Ht);
      [now inversion Hpos |].
    rewrite HQ, Hdf, Ht. exists 0%R, 0%R.
    repeat split; try reflexivity; lra.
  - assert (Hlen : (2 <= length (e1 :: e2 :: es))%nat) by (simpl; lia).
    rewrite gold_eval by assumption.
    cbn [GoldStandard.Q GoldStandard.df GoldStandard.tau2 gold_result].
    do 2 eexists. repeat (split; [reflexivity |]).
    split; [apply tau2_nonneg |].
    apply tau2_zero_when_Q_le_df. now apply C_pos.
Qed.

(** ** Remaining cases of one study, and reordering *)

Lemma gold_single_weights stats (e : R * R) :
  0 < snd e ->
  GoldStandard.weights_fe_pct
    (GoldStandard.steps_2_to_4 stats (yis [e]) (vis [e])) = weights_at [e] 0 /\
  GoldStandard.weights_re_pct
    (GoldStandard.steps_2_to_4 stats (yis [e]) (vis [e])) = weights_at [e] 0.
Proof.
  intros He.
  assert (Hpos : positive_variances [e]) by (repeat constructor; exact He).
  assert (Hne : [e] <> []) by discriminate.
  pose proof (sum_w_pos [e] Hne Hpos) as Hs.
  pose proof (sum_w_at_pos 0 [e] Hne (Rle_refl 0) Hpos) as Hs0.
  destruct (gold_single_tau2 stats e He) as (_ & _ & Ht).
  unfold GoldStandard.steps_2_to_4 in Ht |- * .
  cbv zeta in Ht |- * .
  cbn [GoldStandard.tau2 GoldStandard.weights_fe_pct
       GoldStandard.weights_re_pct] in Ht |- * .
  rewrite Ht.
  rewrite weights_eval by (lra || assumption).
  rewrite fixed_weights_eval by assumption.
  rewrite !np_sum_fin. fold (sum_w [e]). fold (sum_w_at [e] 0).
  rewrite !weight_pct_eval by lra.
  split; [now rewrite <- weights_at_0 | reflexivity].
Qed.

Lemma positive_variances_perm (es es' : list (R * R)) :
  Permutation es es' -> positive_variances es -> positive_variances es'.
Proof. intros Hp H. unfold positive_variances. now rewrite <- Hp. Qed.

Lemma comprehensive_het_perm stats es es' model :
  Permutation es es' -> positive_variances es ->
  exists d d' h,
    Comprehensive.meta_analysis stats (yis es) (vis es) model = Ok d /\
    Comprehensive.meta_analysis stats (yis es') (vis es') model = Ok d' /\
    dict_sub "heterogeneity" d = Some h /\
    dict_sub "heterogeneity" d' = Some h.
Proof.
  intros Hperm Hpos.
  pose proof (positive_variances_perm _ _ Hperm Hpos) as Hpos'.
  destruct es as [| e1 [| e2 es]].
  - apply Permutation_nil in Hperm. subst es'.
    change (yis []) with (@nil num). change (vis []) with (@nil num).
    destruct (comprehensive_empty stats model) as (s & se & ->).
    do 3 eexists. repeat split; reflexivity.
  - apply Permutation_length_1_inv in Hperm. subst es'.
    rewrite comprehensive_eval_single by (now inversion Hpos).
    do 3 eexists. repeat split; reflexivity.
  - assert (Hlen : (2 <= length (e1 :: e2 :: es))%nat) by (simpl; lia).
    assert (Hlen' : (2 <= length es')%nat)
      by (now rewrite <- (Permutation_length Hperm)).
    rewrite !comprehensive_eval by assumption.
    do 3 eexists. split; [reflexivity |]. split; [reflexivity |].
    split; [reflexivity |].
    unfold comprehensive_result, dict_sub.
    cbn [dict_get String.eqb Ascii.eqb Bool.eqb].
    now rewrite (het_formulas_perm _ _ Hperm).
Qed.

(** ** Hedges' g on a study without spread *)

Lemma hedges_g_no_spread :
  Comprehensive.hedges_g (Fin 1) (Fin 0) (of_int 5) (Fin 0) (Fin 0) (of_int 5)
  = Ok (PInf, PInf).
Proof.
  unfold Comprehensive.hedges_g. cbv zeta.
  unfold of_int. cbn [fadd fsub fneg fmul fsq].
  rewrite !py_div_fin by lra. cbn [bind fadd fsub fneg].
  match goal with
  | |- context [np_sqrt (Fin ?r)] => replace r with 0%R by (field; lra)
  end.
  rewrite np_sqrt_fin by lra. rewrite sqrt_0.
  assert (Hd : Fin (1 + - 0) /. Fin 0 = PInf).
  { unfold np_div. rewrite Reqb_true by reflexivity.
    rewrite Reqb_false by lra. now rewrite Rltb_true by lra. }
  rewrite Hd.
  assert (HJ : forall j, 0 < j -> PInf *. Fin j = PInf).
  { intros j Hj. cbn [fmul]. unfold inf_times.
    rewrite Reqb_false by lra. now rewrite Rltb_true by lra. }
  assert (HJpos : 0 < 1 + - (3 / (4 * (5 + 5 + - (2)) + - (1)))).
  { replace (1 + - (3 / (4 * (5 + 5 + - (2)) + - (1))))%R with (28 / 31)%R
      by (field; lra).
    lra. }
  rewrite !HJ by exact HJpos.
  cbn [fsq fmul np_div]. rewrite Rltb_false by lra.
  cbn [np_sqrt]. now rewrite HJ by exact HJpos.
Qed.

Lemma pooled_sd_no_spread : pooled_sd 0 5 0 5 = 0%R.
Proof.
  unfold pooled_sd.
  replace (((5 - 1) * 0 ^ 2 + (5 - 1) * 0 ^ 2) / (5 + 5 - 2))%R with 0%R
    by field.
  apply sqrt_0.
Qed.

(** ** A single hazard-ratio study *)

(** A reported hazard ratio with a proper confidence interval has a
    positive sampling variance. *)
Lemma study_vi_positive (nm : string) (h : num) (lo hi : R) :
  0 < lo -> 0 < hi -> lo <> hi ->
  exists v : R,
    HR.study_vi {| HR.name := nm; HR.hr := h;
                   HR.ciLower := Fin lo; HR.ciUpper := Fin hi |} = Fin v /\
    0 < v.
Proof.
  intros Hlo Hhi Hne.
  unfold HR.study_vi, HR.log_hazard_ratio. cbn [HR.hr HR.ciLower HR.ciUpper snd].
  rewrite !np_log_fin by assumption. cbn [fsub fneg fadd fmul].
  rewrite np_div_fin by lra. cbn [fsq fmul].
  eexists. split; [reflexivity |].
  assert (Hln : ln hi <> ln lo).
  { intros H. apply Hne. symmetry. now apply ln_inv. }
  assert (Hs : (ln hi + - ln lo) / (2 * 1.96) <> 0).
  { unfold Rdiv. apply Rmult_integral_contrapositive_currified; [lra |].
    apply Rinv_neq_0_compat. lra. }
  nra.
Qed.

Lemma meta_analysis_hr_single stats (nm : string) (h : num) (lo hi : R) model :
  0 < lo -> 0 < hi -> lo <> hi ->
  exists d,
    HR.meta_analysis_hr stats
      [{| HR.name := nm; HR.hr := h;
          HR.ciLower := Fin lo; HR.ciUpper := Fin hi |}] model = Ok d /\
    dict_sub "heterogeneity" d = Some HR.het_degenerate.
Proof.
  intros Hlo Hhi Hne.
  destruct (study_vi_positive nm h lo hi Hlo Hhi Hne) as (v & Hv & Hpos).
  unfold HR.meta_analysis_hr. cbv zeta. cbn [map]. rewrite Hv.
  destruct (hr_single stats
              (HR.study_yi {| HR.name := nm; HR.hr := h;
                              HR.ciLower := Fin lo; HR.ciUpper := Fin hi |})
              v model Hpos) as (pooled & fixed & w & ->).
  cbn [bind HR.het]. eexists. split; reflexivity.
Qed.

(** * Main results *)













(** C9. Zero-cell correction of events1=0, total1=20, events2=5, total2=22
    gives the corrected counts 0.5, 21, 5.5, 23, hence the cells a = 0.5 and
    b = 20.5; applied again to the corrected counts it changes nothing; and
    [log_odds_ratio] computes on cells corrected once. *)
Theorem zero_cell_correction_once :
  Comprehensive.correct_zero_cells (of_int 0) (of_int 20) (of_int 5) (of_int 22)
  = (Fin 0.5, Fin 21, Fin 5.5, Fin 23) /\
  Fin 21 -. Fin 0.5 = Fin 20.5 /\
  Comprehensive.correct_zero_cells (Fin 0.5) (Fin 21) (Fin 5.5) (Fin 23)
  = (Fin 0.5, Fin 21, Fin 5.5, Fin 23) /\
  Comprehensive.log_odds_ratio (of_int 0) (of_int 20) (of_int 5) (of_int 22)
  = Ok (np_log (Fin (0.5 * 17.5 / (20.5 * 5.5))),
        np_sqrt (Fin (1 / 0.5 + 1 / 20.5 + 1 / 5.5 + 1 / 17.5))).
Proof.
  assert (Hc : Comprehensive.correct_zero_cells
                 (of_int 0) (of_int 20) (of_int 5) (of_int 22)
               = (Fin 0.5, Fin 21, Fin 5.5, Fin 23)).
  { unfold Comprehensive.correct_zero_cells, of_int. cbn [feqb].
    rewrite (Reqb_true 0 0) by reflexivity. cbn [orb negb fadd].
    repeat f_equal; lra. }
  repeat split.
  - exact Hc.
  - cbn [fsub fneg fadd]. f_equal. lra.
  - unfold Comprehensive.correct_zero_cells. cbn [feqb].
    rewrite !Reqb_false by lra. reflexivity.
  - unfold Comprehensive.log_odds_ratio. rewrite Hc.
    cbn [fsub fneg fadd fmul].
    rewrite !py_div_fin by lra. cbn [bind fadd].
    replace (21 + - (0.5))%R with 20.5%R by lra.
    replace (23 + - (5.5))%R with 17.5%R by lra.
    reflexivity.
Qed.










(** * Further properties *)

(** ** Odds ratios of integer counts *)

Lemma fin_eq (a b : R) : a = b -> Fin a = Fin b.
Proof. now intros ->. Qed.

Ltac fin_tuple :=
  repeat match goal with
         | |- (_, _) = (_, _) => apply f_equal2
         end;
  try apply fin_eq.

Lemma Reqb_IZR (x y : Z) : Reqb (IZR x) (IZR y) = (x =? y)%Z.
Proof.
  destruct (Z.eqb_spec x y) as [-> | Hne].
  - now apply Reqb_true.
  - apply Reqb_false. intros H. now apply eq_IZR in H.
Qed.

Lemma correct_zero_cells_int (events1 total1 events2 total2 : Z) :
  Comprehensive.correct_zero_cells (of_int events1) (of_int total1)
                                   (of_int events2) (of_int total2)
  = if has_zero_cell events1 total1 events2 total2
    then (Fin (IZR events1 + 0.5), Fin (IZR total1 + 1),
          Fin (IZR events2 + 0.5), Fin (IZR total2 + 1))
    else (of_int events1, of_int total1, of_int events2, of_int total2).
Proof.
  unfold Comprehensive.correct_zero_cells, has_zero_cell, of_int.
  cbn [feqb]. change 0%R with (IZR 0). rewrite !Reqb_IZR.
  now destruct (_ || _ || _ || _).
Qed.

Lemma corrected_cells_int (events1 total1 events2 total2 : Z) :
  corrected_cells (of_int events1) (of_int total1)
                  (of_int events2) (of_int total2)
  = let '(a, b, c, d) := cell_values events1 total1 events2 total2 in
    (Fin a, Fin b, Fin c, Fin d).
Proof.
  unfold corrected_cells, cell_values. rewrite correct_zero_cells_int.
  destruct (has_zero_cell events1 total1 events2 total2);
    unfold of_int; cbn [fsub fneg fadd]; rewrite !minus_IZR;
    fin_tuple; lra.
Qed.


(** ** Log odds ratio *)

Lemma log_odds_ratio_cells (events1 total1 events2 total2 : num)
    (a b c d : R) :
  corrected_cells events1 total1 events2 total2
  = (Fin a, Fin b, Fin c, Fin d) ->
  a <> 0 -> b <> 0 -> c <> 0 -> d <> 0 ->
  Comprehensive.log_odds_ratio events1 total1 events2 total2
  = Ok (np_log (Fin (a * d / (b * c))),
        np_sqrt (Fin (1 / a + 1 / b + 1 / c + 1 / d))).
Proof.
  unfold corrected_cells, Comprehensive.log_odds_ratio.
  destruct (Comprehensive.correct_zero_cells _ _ _ _) as [[[e1 t1] e2] t2].
  intros Hc Ha Hb Hc' Hd. injection Hc as -> -> -> ->.
  cbn [fmul].
  assert (Hbc : b * c <> 0) by (now apply Rmult_integral_contrapositive_currified).
  rewrite !py_div_fin by assumption. reflexivity.
Qed.

Lemma cell_values_nonzero (events1 total1 events2 total2 : Z) :
  let '(a, b, c, d) := cell_values events1 total1 events2 total2 in
  a <> 0 /\ b <> 0 /\ c <> 0 /\ d <> 0.
Proof.
  unfold cell_values, has_zero_cell.
  destruct (Z.eqb_spec events1 0) as [H1 | H1];
    [cbn [orb]; repeat split; apply half_integer_nonzero |].
  destruct (Z.eqb_spec events2 0) as [H2 | H2];
    [cbn [orb]; repeat split; apply half_integer_nonzero |].
  destruct (Z.eqb_spec events1 total1) as [H3 | H3];
    [cbn [orb]; repeat split; apply half_integer_nonzero |].
  destruct (Z.eqb_spec events2 total2) as [H4 | H4];
    [cbn [orb]; repeat split; apply half_integer_nonzero |].
  cbn [orb]. rewrite !Rplus_0_r.
  repeat split; apply not_0_IZR; lia.
Qed.

Lemma cell_values_positive (events1 total1 events2 total2 : Z) :
  valid_counts events1 total1 events2 total2 ->
  let '(a, b, c, d) := cell_values events1 total1 events2 total2 in
  0 < a /\ 0 < b /\ 0 < c /\ 0 < d.
Proof.
  intros [[H1 H2] [H3 H4]].
  pose proof (cell_values_nonzero events1 total1 events2 total2) as Hnz.
  unfold cell_values in Hnz |- * .
  assert (Hh : 0 <= (if has_zero_cell events1 total1 events2 total2
                     then 0.5 else 0))
    by (destruct (has_zero_cell _ _ _ _); lra).
  set (h := if has_zero_cell events1 total1 events2 total2 then 0.5 else 0)
    in Hnz, Hh |- * .
  assert (0 <= IZR events1) by (now apply IZR_le).
  assert (0 <= IZR events2) by (now apply IZR_le).
  assert (0 <= IZR (total1 - events1)) by (apply IZR_le; lia).
  assert (0 <= IZR (total2 - events2)) by (apply IZR_le; lia).
  destruct Hnz as (Ha & Hb & Hc & Hd). repeat split; lra.
Qed.


Lemma woolf_sum_positive (a b c d : R) :
  0 < a -> 0 < b -> 0 < c -> 0 < d -> 0 < 1 / a + 1 / b + 1 / c + 1 / d.
Proof.
  intros Ha Hb Hc Hd.
  pose proof (Rdiv_lt_0_compat 1 a Rlt_0_1 Ha).
  pose proof (Rdiv_lt_0_compat 1 b Rlt_0_1 Hb).
  pose proof (Rdiv_lt_0_compat 1 c Rlt_0_1 Hc).
  pose proof (Rdiv_lt_0_compat 1 d Rlt_0_1 Hd).
  lra.
Qed.

Lemma log_odds_ratio_valid (events1 total1 events2 total2 : Z) :
  valid_counts events1 total1 events2 total2 ->
  let cells := cell_values events1 total1 events2 total2 in
  Comprehensive.log_odds_ratio (of_int events1) (of_int total1)
                               (of_int events2) (of_int total2)
  = Ok (Fin (log_or cells), Fin (se_log_or cells)) /\
  0 < se_log_or cells.
Proof.
  intros Hv. cbv zeta.
  pose proof (corrected_cells_int events1 total1 events2 total2) as Hc.
  pose proof (cell_values_positive events1 total1 events2 total2 Hv) as Hp.
  destruct (cell_values events1 total1 events2 total2) as [[[a b] c] d].
  destruct Hp as (Ha & Hb & Hc' & Hd).
  pose proof (woolf_sum_positive a b c d Ha Hb Hc' Hd) as Hs.
  rewrite (log_odds_ratio_cells _ _ _ _ a b c d Hc) by lra.
  assert (Hq : 0 < a * d / (b * c)).
  { apply Rdiv_lt_0_compat; now apply Rmult_lt_0_compat. }
  rewrite np_log_fin by exact Hq. rewrite np_sqrt_fin by lra.
  split; [reflexivity |]. cbn [se_log_or]. now apply sqrt_lt_R0.
Qed.



Lemma gold_log_odds_ratio_cells (events1 total1 events2 total2 : Z) :
  events1 <> 0%Z -> (total1 - events1 <> 0)%Z ->
  events2 <> 0%Z -> (total2 - events2 <> 0)%Z ->
  GoldStandard.log_odds_ratio events1 total1 events2 total2
  = Ok (np_log (Fin (IZR events1 * IZR (total2 - events2)
                     / (IZR (total1 - events1) * IZR events2))),
        np_sqrt (Fin (1 / IZR events1 + 1 / IZR (total1 - events1)
                      + 1 / IZR events2 + 1 / IZR (total2 - events2)))).
Proof.
  intros Ha Hb Hc Hd. unfold GoldStandard.log_odds_ratio. cbv zeta.
  rewrite !py_div_int by (assumption || nia). cbn [bind].
  unfold of_int. rewrite !np_div_fin by (apply not_0_IZR; assumption || nia).
  rewrite !mult_IZR. reflexivity.
Qed.

(** X4. log_odds_ratio of validate-gold-standard.py, which applies no
    correction, raises ZeroDivisionError exactly when one of the four cells
    events1, total1 - events1, events2, total2 - events2 is zero. *)
Lemma gold_log_odds_ratio_raises_iff (events1 total1 events2 total2 : Z) :
  GoldStandard.log_odds_ratio events1 total1 events2 total2
  = Raise ZeroDivisionError
  <-> (events1 = 0 \/ total1 - events1 = 0 \/
       events2 = 0 \/ total2 - events2 = 0)%Z.
Proof.
  split; [| apply gold_log_odds_ratio_zero_cell].
  intros Hraise.
  destruct (Z.eq_dec events1 0) as [| Ha]; [now left |].
  destruct (Z.eq_dec (total1 - events1) 0) as [| Hb]; [now right; left |].
  destruct (Z.eq_dec events2 0) as [| Hc]; [now right; right; left |].
  destruct (Z.eq_dec (total2 - events2) 0) as [| Hd]; [now right; right; right |].
  rewrite gold_log_odds_ratio_cells in Hraise by assumption. discriminate.
Qed.

Lemma has_zero_cell_false (events1 total1 events2 total2 : Z) :
  has_zero_cell events1 total1 events2 total2 = false ->
  (events1 <> 0 /\ total1 - events1 <> 0 /\
   events2 <> 0 /\ total2 - events2 <> 0)%Z.
Proof.
  unfold has_zero_cell. intros H.
  apply orb_false_elim in H as [H H4]. apply orb_false_elim in H as [H H3].
  apply orb_false_elim in H as [H1 H2].
  apply Z.eqb_neq in H1, H2, H3, H4. lia.
Qed.

(** X5. On a table of integer counts without empty cell the log_odds_ratio
    of validate-comprehensive.py and the log_odds_ratio of validate-gold-
    standard.py give the same outcome: the same pair (yi, sei). *)
Lemma log_odds_ratio_agree (events1 total1 events2 total2 : Z) :
  has_zero_cell events1 total1 events2 total2 = false ->
  Comprehensive.log_odds_ratio (of_int events1) (of_int total1)
                               (of_int events2) (of_int total2)
  = GoldStandard.log_odds_ratio events1 total1 events2 total2.
Proof.
  intros Hz.
  destruct (has_zero_cell_false _ _ _ _ Hz) as (Ha & Hb & Hc & Hd).
  pose proof (corrected_cells_int events1 total1 events2 total2) as Hcells.
  unfold cell_values in Hcells. rewrite Hz in Hcells.
  rewrite !Rplus_0_r in Hcells.
  rewrite (log_odds_ratio_cells _ _ _ _ _ _ _ _ Hcells)
    by (apply not_0_IZR; assumption).
  now rewrite gold_log_odds_ratio_cells by assumption.
Qed.

Lemma log_odds_ratio_agree_witness :
  Comprehensive.log_odds_ratio (of_int 3) (of_int 30) (of_int 8) (of_int 28)
  = GoldStandard.log_odds_ratio 3 30 8 28.
Proof. apply (log_odds_ratio_agree 3 30 8 28). reflexivity. Defined.

Lemma has_zero_cell_swap (events1 total1 events2 total2 : Z) :
  has_zero_cell events2 total2 events1 total1
  = has_zero_cell events1 total1 events2 total2.
Proof.
  unfold has_zero_cell.
  destruct (events1 =? 0)%Z, (events2 =? 0)%Z, (events1 =? total1)%Z,
    (events2 =? total2)%Z; reflexivity.
Qed.



(** ** Risk ratios of integer counts *)

(** ** Log risk ratio *)

Lemma log_risk_ratio_counts (events1 total1 events2 total2 : num)
    (e1 t1 e2 t2 : R) :
  Comprehensive.correct_zero_cells events1 total1 events2 total2
  = (Fin e1, Fin t1, Fin e2, Fin t2) ->
  0 < e1 < t1 -> 0 < e2 < t2 ->
  Comprehensive.log_risk_ratio events1 total1 events2 total2
  = Ok (Fin (log_rr (e1, t1, e2, t2)), Fin (se_log_rr (e1, t1, e2, t2))) /\
  0 < se_log_rr (e1, t1, e2, t2).
Proof.
  intros Hc [He1 Ht1] [He2 Ht2]. unfold Comprehensive.log_risk_ratio.
  rewrite Hc.
  assert (Hp1 : 0 < e1 / t1 < 1).
  { split; [apply Rdiv_lt_0_compat; lra |].
    apply Rmult_lt_reg_r with (r := t1); [lra |].
    unfold Rdiv. rewrite Rmult_assoc, Rinv_l by lra. lra. }
  assert (Hp2 : 0 < e2 / t2 < 1).
  { split; [apply Rdiv_lt_0_compat; lra |].
    apply Rmult_lt_reg_r with (r := t2); [lra |].
    unfold Rdiv. rewrite Rmult_assoc, Rinv_l by lra. lra. }
  rewrite !py_div_fin by lra. cbn [bind fsub fneg fadd].
  rewrite !py_div_fin by lra. cbn [bind fadd].
  assert (Hq : 0 < e1 / t1 / (e2 / t2)) by (apply Rdiv_lt_0_compat; lra).
  assert (Hu1 : 0 < (1 + - (e1 / t1)) / e1) by (apply Rdiv_lt_0_compat; lra).
  assert (Hu2 : 0 < (1 + - (e2 / t2)) / e2) by (apply Rdiv_lt_0_compat; lra).
  rewrite np_log_fin by exact Hq. rewrite np_sqrt_fin by lra.
  cbn [log_rr se_log_rr].
  replace ((1 - e1 / t1) / e1 + (1 - e2 / t2) / e2)%R
    with ((1 + - (e1 / t1)) / e1 + (1 + - (e2 / t2)) / e2)%R
    by (unfold Rminus; reflexivity).
  split; [reflexivity |]. apply sqrt_lt_R0. lra.
Qed.

Lemma count_values_valid (events1 total1 events2 total2 : Z) :
  valid_counts events1 total1 events2 total2 ->
  let '(e1, t1, e2, t2) := count_values events1 total1 events2 total2 in
  0 < e1 < t1 /\ 0 < e2 < t2.
Proof.
  intros [[H1 H2] [H3 H4]]. unfold count_values.
  destruct (has_zero_cell events1 total1 events2 total2) eqn:Hz.
  - apply IZR_le in H1, H2, H3, H4. repeat split; lra.
  - destruct (has_zero_cell_false _ _ _ _ Hz) as (Ha & Hb & Hc & Hd).
    repeat split; apply IZR_lt; lia.
Qed.

Lemma log_risk_ratio_valid (events1 total1 events2 total2 : Z) :
  valid_counts events1 total1 events2 total2 ->
  let counts := count_values events1 total1 events2 total2 in
  Comprehensive.log_risk_ratio (of_int events1) (of_int total1)
                               (of_int events2) (of_int total2)
  = Ok (Fin (log_rr counts), Fin (se_log_rr counts)) /\
  0 < se_log_rr counts.
Proof.
  intros Hv. cbv zeta.
  pose proof (count_values_valid _ _ _ _ Hv) as Hp.
  pose proof (correct_zero_cells_int events1 total1 events2 total2) as Hc.
  unfold count_values in Hp |- * .
  destruct (has_zero_cell events1 total1 events2 total2);
    destruct Hp as [Hp1 Hp2];
    now apply log_risk_ratio_counts.
Qed.





(** ** Mean differences, Hedges' g and the hazard-ratio back-transform *)

(** ** Mean difference *)

Lemma mean_difference_positive (mean1 sd1 mean2 sd2 : R) (n1 n2 : Z) :
  (0 < n1)%Z -> (0 < n2)%Z ->
  Comprehensive.mean_difference (Fin mean1) (Fin sd1) (of_int n1)
                                (Fin mean2) (Fin sd2) (of_int n2)
  = Ok (Fin (mean1 - mean2),
        Fin (sqrt (sd1 * sd1 / IZR n1 + sd2 * sd2 / IZR n2))).
Proof.
  intros H1 H2. apply IZR_lt in H1, H2.
  unfold Comprehensive.mean_difference, of_int. cbn [fsq fmul].
  rewrite !py_div_fin by lra. cbn [bind fadd].
  rewrite np_sqrt_fin; [reflexivity |].
  assert (0 <= sd1 * sd1 / IZR n1)
    by (apply Rmult_le_pos; [nra | apply Rlt_le, Rinv_0_lt_compat; lra]).
  assert (0 <= sd2 * sd2 / IZR n2)
    by (apply Rmult_le_pos; [nra | apply Rlt_le, Rinv_0_lt_compat; lra]).
  lra.
Qed.


(** Exchanging the two arms changes the sign of the mean difference and
    keeps its standard error. *)
Lemma mean_difference_swap (mean1 sd1 mean2 sd2 : R) (n1 n2 : Z) :
  (0 < n1)%Z -> (0 < n2)%Z ->
  exists yi sei : R,
    Comprehensive.mean_difference (Fin mean1) (Fin sd1) (of_int n1)
                                  (Fin mean2) (Fin sd2) (of_int n2)
    = Ok (Fin yi, Fin sei) /\
    Comprehensive.mean_difference (Fin mean2) (Fin sd2) (of_int n2)
                                  (Fin mean1) (Fin sd1) (of_int n1)
    = Ok (Fin (- yi), Fin sei) /\
    0 <= sei.
Proof.
  intros H1 H2. rewrite !mean_difference_positive by assumption.
  do 2 eexists. split; [reflexivity |]. split.
  - f_equal. fin_tuple; [lra | f_equal; lra].
  - apply sqrt_pos.
Qed.

(** ** Hedges' g *)

Lemma hedges_g_eval (mean1 sd1 mean2 sd2 : R) (n1 n2 : Z) :
  (1 <= n1)%Z -> (1 <= n2)%Z -> (3 <= n1 + n2)%Z ->
  0 < (IZR n1 - 1) * sd1 ^ 2 + (IZR n2 - 1) * sd2 ^ 2 ->
  Comprehensive.hedges_g (Fin mean1) (Fin sd1) (of_int n1)
                         (Fin mean2) (Fin sd2) (of_int n2)
  = Ok (Fin (hedges_yi mean1 sd1 (IZR n1) mean2 sd2 (IZR n2)),
        Fin (hedges_sei mean1 sd1 (IZR n1) mean2 sd2 (IZR n2))).
Proof.
  intros H1 H2 H3 Hvar.
  assert (Hn1 : 1 <= IZR n1) by (now apply IZR_le).
  assert (Hn2 : 1 <= IZR n2) by (now apply IZR_le).
  assert (Hn : 3 <= IZR n1 + IZR n2)
    by (rewrite <- plus_IZR; now apply IZR_le).
  unfold Comprehensive.hedges_g. cbv zeta.
  unfold of_int. cbn [fadd fsub fneg fmul fsq].
  rewrite py_div_fin by lra. cbn [bind].
  assert (H4 : 4 * (IZR n1 + IZR n2 + - (2)) + - (1) <> 0) by lra.
  rewrite py_div_fin by exact H4. cbn [bind].
  rewrite py_div_fin by nra. cbn [bind].
  set (V := (((IZR n1 + - (1)) * (sd1 * sd1)
              + (IZR n2 + - (1)) * (sd2 * sd2))
             / (IZR n1 + IZR n2 + - (2)))%R).
  assert (HV : 0 < V).
  { unfold V. apply Rdiv_lt_0_compat; [| lra].
    replace ((IZR n1 + - (1)) * (sd1 * sd1) + (IZR n2 + - (1)) * (sd2 * sd2))%R
      with ((IZR n1 - 1) * sd1 ^ 2 + (IZR n2 - 1) * sd2 ^ 2)%R by ring.
    exact Hvar. }
  rewrite np_sqrt_fin by lra.
  assert (Hsp : 0 < sqrt V) by (now apply sqrt_lt_R0).
  rewrite np_div_fin by lra. cbn [fsub fneg fadd fmul].
  cbn [fsq fmul]. rewrite np_div_fin by lra. cbv iota.
  assert (HV' : V = (((IZR n1 - 1) * sd1 ^ 2 + (IZR n2 - 1) * sd2 ^ 2)
                     / (IZR n1 + IZR n2 - 2))%R)
    by (unfold V; unfold Rminus; f_equal; ring).
  assert (Hyi : ((mean1 + - mean2) / sqrt V
                 * (1 + - (3 / (4 * (IZR n1 + IZR n2 + - (2)) + - (1)))))%R
                = hedges_yi mean1 sd1 (IZR n1) mean2 sd2 (IZR n2)).
  { unfold hedges_yi, hedges_J, pooled_sd. rewrite <- HV'.
    unfold Rminus. reflexivity. }
  rewrite Hyi.
  set (yi := hedges_yi mean1 sd1 (IZR n1) mean2 sd2 (IZR n2)).
  assert (Harg : 0 <= (IZR n1 + IZR n2) / (IZR n1 * IZR n2)
                      + yi * yi / (2 * (IZR n1 + IZR n2))).
  { assert (0 < (IZR n1 + IZR n2) / (IZR n1 * IZR n2))
      by (apply Rdiv_lt_0_compat; nra).
    assert (0 <= yi * yi / (2 * (IZR n1 + IZR n2)))
      by (apply Rmult_le_pos; [nra | apply Rlt_le, Rinv_0_lt_compat; lra]).
    lra. }
  rewrite np_sqrt_fin by exact Harg. cbn [fmul].
  f_equal. fin_tuple; [reflexivity |].
  unfold hedges_sei, hedges_J. fold yi.
  replace (yi ^ 2)%R with (yi * yi)%R by ring.
  unfold Rminus. reflexivity.
Qed.



Lemma hedges_J_bounds (n1 n2 : R) : 4 <= n1 + n2 -> 0 < hedges_J n1 n2 < 1.
Proof.
  intros Hn. unfold hedges_J.
  assert (Hd : 7 <= 4 * (n1 + n2 - 2) - 1) by lra.
  assert (Hq : 0 < 3 / (4 * (n1 + n2 - 2) - 1) < 1).
  { split; [apply Rdiv_lt_0_compat; lra |].
    apply Rmult_lt_reg_r with (r := (4 * (n1 + n2 - 2) - 1)%R); [lra |].
    unfold Rdiv. rewrite Rmult_assoc, Rinv_l by lra. lra. }
  lra.
Qed.

Lemma pooled_sd_positive (sd1 n1 sd2 n2 : R) :
  3 <= n1 + n2 -> 0 < (n1 - 1) * sd1 ^ 2 + (n2 - 1) * sd2 ^ 2 ->
  0 < pooled_sd sd1 n1 sd2 n2.
Proof.
  intros Hn Hvar. unfold pooled_sd. apply sqrt_lt_R0.
  apply Rdiv_lt_0_compat; lra.
Qed.



Lemma pooled_sd_swap (sd1 n1 sd2 n2 : R) :
  pooled_sd sd2 n2 sd1 n1 = pooled_sd sd1 n1 sd2 n2.
Proof. unfold pooled_sd. f_equal. f_equal; ring. Qed.

Lemma hedges_J_swap (n1 n2 : R) : hedges_J n2 n1 = hedges_J n1 n2.
Proof. unfold hedges_J. do 3 f_equal. ring. Qed.

Lemma hedges_yi_swap (mean1 sd1 n1 mean2 sd2 n2 : R) :
  hedges_yi mean2 sd2 n2 mean1 sd1 n1
  = (- hedges_yi mean1 sd1 n1 mean2 sd2 n2)%R.
Proof.
  unfold hedges_yi. rewrite pooled_sd_swap, hedges_J_swap.
  unfold Rdiv. ring.
Qed.



(** ** Log hazard ratio and its back-transform *)

Lemma per_study_entry_eval (nm : string) (h lo hi : R) :
  0 < h -> 0 < lo -> 0 < hi ->
  HR.per_study_entry {| HR.name := nm; HR.hr := Fin h;
                        HR.ciLower := Fin lo; HR.ciUpper := Fin hi |}
  = let sei := ((ln hi - ln lo) / (2 * 1.96))%R in
    [("name", PyStr nm);
     ("yi", PyFloat (Fin (ln h)));
     ("sei", PyFloat (Fin sei));
     ("vi", PyFloat (Fin (sei * sei)));
     ("effect", PyFloat (Fin (exp (ln h))));
     ("ciLower", PyFloat (Fin (exp (ln h - 1.96 * sei))));
     ("ciUpper", PyFloat (Fin (exp (ln h + 1.96 * sei))))]%string.
Proof.
  intros Hh Hlo Hhi. unfold HR.per_study_entry, HR.log_hazard_ratio.
  cbn [HR.name HR.hr HR.ciLower HR.ciUpper].
  rewrite !np_log_fin by assumption. cbn [fsub fneg fadd fmul].
  now rewrite np_div_fin by lra.
Qed.



(** ** Ranges and bounds of the pooled results *)

(** ** Ranges of the heterogeneity statistics *)

Lemma Q_nonneg (es : list (R * R)) : positive_variances es -> 0 <= Q es.
Proof.
  intros Hpos. unfold Q. apply sumR_nonneg. apply Forall_map.
  eapply Forall_impl; [| exact Hpos]. intros e He. simpl in He.
  apply Rmult_le_pos; [| apply pow2_ge_0].
  unfold w, vi. apply Rlt_le, Rdiv_lt_0_compat; lra.
Qed.

Lemma I2_bounds (es : list (R * R)) :
  (0 < df es)%Z -> 0 <= I2 es < 100.
Proof.
  intros Hdf. apply IZR_lt in Hdf. unfold I2.
  destruct (Rlt_dec 0 (Q es)) as [HQ | HQ]; [| lra].
  split; [apply Rmax_l |].
  apply Rmax_lub_lt; [lra |].
  assert (Hq : 0 < IZR (df es) / Q es) by (apply Rdiv_lt_0_compat; lra).
  replace ((Q es - IZR (df es)) / Q es * 100)%R
    with (100 - IZR (df es) / Q es * 100)%R by (field; lra).
  lra.
Qed.



(** ** The pooled summary is a weighted mean *)

Lemma weighted_sum_bounds (t a b : R) (es : list (R * R)) :
  0 <= t -> positive_variances es ->
  (forall e, In e es -> a <= fst e <= b) ->
  a * sum_w_at es t <= sumR (map (fun e => w_at t e * yi e) es)
  <= b * sum_w_at es t.
Proof.
  intros Ht Hpos. unfold sum_w_at.
  induction Hpos as [| e es He Hpos IH]; intros Hab; simpl; [lra |].
  destruct IH as [IH1 IH2]; [intros e' He'; apply Hab; now right |].
  destruct (Hab e (or_introl eq_refl)) as [Ha Hb].
  assert (Hw : 0 < w_at t e)
    by (unfold w_at, vi; apply Rdiv_lt_0_compat; lra).
  unfold yi at 1 3. split; nra.
Qed.

Lemma summary_at_bounds (t a b : R) (es : list (R * R)) :
  es <> [] -> 0 <= t -> positive_variances es ->
  (forall e, In e es -> a <= fst e <= b) ->
  a <= summary_at es t <= b.
Proof.
  intros Hne Ht Hpos Hab.
  pose proof (sum_w_at_pos t es Hne Ht Hpos) as Hs.
  destruct (weighted_sum_bounds t a b es Ht Hpos Hab) as [H1 H2].
  pose proof (Rinv_0_lt_compat _ Hs) as Hi.
  unfold summary_at, Rdiv. split.
  - apply Rmult_le_reg_r with (r := sum_w_at es t); [exact Hs |].
    rewrite Rmult_assoc, Rinv_l by lra. lra.
  - apply Rmult_le_reg_r with (r := sum_w_at es t); [exact Hs |].
    rewrite Rmult_assoc, Rinv_l by lra. lra.
Qed.

Lemma model_tau2_nonneg (es : list (R * R)) model :
  0 <= model_tau2 es model.
Proof.
  unfold model_tau2. destruct (String.eqb model "fixed");
    [lra | apply tau2_nonneg].
Qed.



(** ** Random effects against fixed effects *)

Lemma sum_w_at_decreasing (t : R) (es : list (R * R)) :
  0 <= t -> positive_variances es -> sum_w_at es t <= sum_w_at es 0.
Proof.
  intros Ht Hpos. unfold sum_w_at.
  induction Hpos as [| e es He Hpos IH]; simpl; [lra |].
  assert (w_at t e <= w_at 0 e).
  { unfold w_at, vi, Rdiv. rewrite !Rmult_1_l.
    apply Rinv_le_contravar; lra. }
  lra.
Qed.

Lemma se_at_increasing (t : R) (es : list (R * R)) :
  es <> [] -> 0 <= t -> positive_variances es ->
  0 < se_at es 0 <= se_at es t.
Proof.
  intros Hne Ht Hpos.
  pose proof (sum_w_at_pos t es Hne Ht Hpos) as Hst.
  pose proof (sum_w_at_pos 0 es Hne (Rle_refl 0) Hpos) as Hs0.
  pose proof (sum_w_at_decreasing t es Ht Hpos) as Hle.
  split; [now apply se_at_pos; try lra |].
  unfold se_at. apply sqrt_le_1_alt.
  unfold Rdiv. rewrite !Rmult_1_l. now apply Rinv_le_contravar.
Qed.





(** ** Studies that agree exactly *)

Lemma sumR_map_const_mult (y : R) (g : R * R -> R) (es : list (R * R)) :
  (forall e, In e es -> fst e = y) ->
  sumR (map (fun e => g e * yi e) es) = (sumR (map g es) * y)%R.
Proof.
  induction es as [| e es IH]; intros Hy; simpl; [lra |].
  rewrite IH by (intros e' He'; apply Hy; now right).
  unfold yi at 1. rewrite (Hy e (or_introl eq_refl)). ring.
Qed.

Lemma summary_at_const (t y : R) (es : list (R * R)) :
  es <> [] -> 0 <= t -> positive_variances es ->
  (forall e, In e es -> fst e = y) ->
  summary_at es t = y.
Proof.
  intros Hne Ht Hpos Hy.
  pose proof (sum_w_at_pos t es Hne Ht Hpos) as Hs.
  unfold summary_at. rewrite sumR_map_const_mult with (y := y) by exact Hy.
  fold (sum_w_at es t). field. lra.
Qed.

Lemma Q_const (y : R) (es : list (R * R)) :
  es <> [] -> positive_variances es ->
  (forall e, In e es -> fst e = y) ->
  Q es = 0%R.
Proof.
  intros Hne Hpos Hy.
  assert (Hbar : ybar es = y).
  { rewrite <- summary_at_0. apply summary_at_const; (assumption || lra). }
  unfold Q. rewrite Hbar.
  rewrite (map_ext_in _ (fun _ => 0%R)).
  - clear. induction es as [| e es IH]; simpl; [reflexivity | lra].
  - intros e He. unfold yi. rewrite (Hy e He). ring.
Qed.



(** ** Empty input *)

(** X19. On empty arrays meta_analysis does not raise: it returns summary
    NaN, se infinite, the degenerate heterogeneity dictionary and empty
    weight lists (numpy divisions by a zero sum); meta_analysis_hr on an
    empty list of studies raises ZeroDivisionError instead, because there
    sum_w_fe is a Python float. *)
Lemma empty_input stats model :
  Comprehensive.meta_analysis stats [] [] model
  = Ok [("summary", PyFloat NaN);
        ("se", PyFloat PInf);
        ("heterogeneity", PyDict Comprehensive.het_degenerate);
        ("weights_fe", floats []);
        ("weights_re", floats [])]%string /\
  HR.meta_analysis_hr stats [] model = Raise ZeroDivisionError.
Proof.
  split.
  - unfold Comprehensive.meta_analysis. cbv zeta.
    cbn [length Z.of_nat Z.sub Z.opp Z.add Z.leb Z.compare Z.pos_sub
         scalar_arr arr_scalar arr_map2 combine map np_sum fold_right].
    assert (H0 : Fin 0 /. Fin 0 = NaN)
      by (unfold np_div; now rewrite !Reqb_true by reflexivity).
    assert (H1 : Fin 1 /. Fin 0 = PInf).
    { unfold np_div. rewrite Reqb_true by reflexivity.
      rewrite Reqb_false by lra. now rewrite Rltb_true by lra. }
    rewrite H0, H1. reflexivity.
  - unfold HR.meta_analysis_hr, HR.pool. cbv zeta.
    cbn [map length scalar_arr np_sum fold_right].
    now rewrite py_div_zero.
Qed.

(** ** A study with zero variance *)

(** ** A study with zero variance *)

Lemma np_sum_nonneg_or_inf (l : list num) :
  Forall nonneg_or_inf l -> nonneg_or_inf (np_sum l).
Proof.
  induction 1 as [| x l Hx _ IH]; [simpl; lra |].
  change (nonneg_or_inf (x +. np_sum l)).
  destruct x as [a | | |], (np_sum l) as [b | | |]; simpl in *; try tauto; lra.
Qed.

Lemma np_sum_with_inf (l : list num) :
  Forall nonneg_or_inf l -> In PInf l -> np_sum l = PInf.
Proof.
  induction 1 as [| x l Hx Hl IH]; intros Hin; [destruct Hin |].
  change (x +. np_sum l = PInf).
  pose proof (np_sum_nonneg_or_inf l Hl) as Hs.
  destruct Hin as [-> | Hin].
  - destruct (np_sum l); simpl in *; tauto.
  - rewrite (IH Hin). destruct x; simpl in *; tauto.
Qed.

Lemma inverse_variance_weight (v t : R) :
  0 <= v -> 0 <= t ->
  nonneg_or_inf (Fin 1 /. (Fin v +. Fin t)) /\
  ((v + t = 0)%R -> Fin 1 /. (Fin v +. Fin t) = PInf).
Proof.
  intros Hv Ht. cbn [fadd]. unfold np_div.
  destruct (Req_dec_T (v + t) 0) as [H0 | H0].
  - rewrite (Reqb_true _ _ H0), Reqb_false, Rltb_true by lra.
    simpl. tauto.
  - rewrite (Reqb_false _ _ H0). split; [| tauto]. simpl.
    apply Rlt_le, Rdiv_lt_0_compat; lra.
Qed.

Lemma fsq_nonneg_or_inf (x : num) : nonneg_or_inf x -> nonneg_or_inf (fsq x).
Proof. destruct x; simpl; try tauto. intros H. nra. Qed.

Section ZeroVariance.
Variable es : list (R * R).
Hypothesis Hnonneg : Forall (fun e => 0 <= snd e) es.
Hypothesis Hzero : Exists (fun e => snd e = 0%R) es.

Lemma weights_with_zero_variance (t : R) :
  0 <= t ->
  Forall nonneg_or_inf
    (scalar_arr np_div (Fin 1) (arr_scalar fadd (vis es) (Fin t))) /\
  (t = 0%R ->
   In PInf (scalar_arr np_div (Fin 1) (arr_scalar fadd (vis es) (Fin t)))).
Proof.
  intros Ht. unfold vis. rewrite arr_scalar_col, scalar_arr_col. split.
  - apply Forall_map. eapply Forall_impl; [| exact Hnonneg].
    intros e He. now apply inverse_variance_weight.
  - intros ->. apply Exists_exists in Hzero as (e & Hin & He).
    apply in_map_iff. exists e. split; [| exact Hin].
    apply inverse_variance_weight; rewrite ?He; lra.
Qed.

Lemma fixed_weights_with_zero_variance :
  Forall nonneg_or_inf (scalar_arr np_div (Fin 1) (vis es)) /\
  In PInf (scalar_arr np_div (Fin 1) (vis es)).
Proof.
  unfold vis. rewrite scalar_arr_col. split.
  - apply Forall_map. eapply Forall_impl; [| exact Hnonneg].
    intros e He.
    destruct (inverse_variance_weight (snd e) 0 He (Rle_refl 0)) as [H _].
    cbn [fadd] in H. now rewrite Rplus_0_r in H.
  - apply Exists_exists in Hzero as (e & Hin & He).
    apply in_map_iff. exists e. split; [| exact Hin].
    destruct (inverse_variance_weight (snd e) 0) as [_ H]; [lra | lra |].
    cbn [fadd] in H. rewrite Rplus_0_r in H. apply H. exact He.
Qed.

Lemma py_div_fgt0 (x y : num) : fgt0 y = true -> py_div x y = Ok (x /. y).
Proof.
  intros Hy. unfold py_div. destruct y as [r | | |]; try reflexivity.
  simpl in Hy |- * . unfold Rltb in Hy.
  destruct (Rlt_dec 0 r); [| discriminate].
  now rewrite Reqb_false by lra.
Qed.

(** X20. When two or more studies have non-negative variances and one
    variance is exactly 0, meta_analysis raises ZeroDivisionError under
    either model: the weight of that study is infinite, the pooled standard
    error is 0, and z = summary / se is a Python division by zero. *)
Lemma zero_variance_raises stats model :
  (2 <= length es)%nat ->
  Comprehensive.meta_analysis stats (yis es) (vis es) model
  = Raise ZeroDivisionError.
Proof.
  intros Hlen.
  destruct fixed_weights_with_zero_variance as [Hw Hin].
  pose proof (np_sum_with_inf _ Hw Hin) as Hsum.
  assert (Hsq : np_sum (map fsq (scalar_arr np_div (Fin 1) (vis es))) = PInf).
  { apply np_sum_with_inf.
    - apply Forall_map. eapply Forall_impl; [| exact Hw].
      intros x. apply fsq_nonneg_or_inf.
    - apply in_map_iff. exists PInf. split; [reflexivity | exact Hin]. }
  destruct (weights_with_zero_variance 0 (Rle_refl 0)) as [Hwr Hinr].
  pose proof (np_sum_with_inf _ Hwr (Hinr eq_refl)) as Hsumr.
  unfold Comprehensive.meta_analysis. cbv zeta.
  rewrite length_yis.
  destruct (Z.leb_spec (Z.of_nat (length es) - 1) 0) as [Hle | _]; [lia |].
  destruct (Z.gtb_spec (Z.of_nat (length es) - 1) 0) as [_ | Hle]; [| lia].
  rewrite Hsum, Hsq.
  change (PInf -. PInf /. PInf) with NaN.
  unfold py_div at 1. cbn [feqb]. rewrite np_div_nan_r. cbn [bind].
  change (py_max0 NaN) with (Fin 0).
  rewrite Hsumr.
  change (Fin 1 /. PInf) with (Fin 0).
  assert (Hse : np_sqrt (Fin 0) = Fin 0).
  { rewrite np_sqrt_fin by lra. now rewrite sqrt_0. }
  rewrite Hse.
  rewrite py_div_int by lia.
  match goal with
  | |- context [if fgt0 ?q then _ else _] =>
      destruct (fgt0 q) eqn:Hq;
      [rewrite (py_div_fgt0 _ q Hq) |]
  end; cbn [bind];
    destruct (String.eqb model "fixed"); now rewrite py_div_zero.
Qed.

End ZeroVariance.

Lemma zero_variance_raises_witness :
  Comprehensive.meta_analysis constant_stats (yis [(0, 0); (1, 1)]%R)
    (vis [(0, 0); (1, 1)]%R) "random"
  = Raise ZeroDivisionError.
Proof.
  apply (zero_variance_raises [(0, 0); (1, 1)]%R).
  - repeat constructor; simpl; lra.
  - left. reflexivity.
  - simpl; lia.
Defined.

(** ** The hazard-ratio pipeline *)

(** ** The hazard-ratio pipeline *)

Lemma study_effect (r : hr_report) :
  proper_report r ->
  HR.study_yi (to_study r) = Fin (fst (report_effect r)) /\
  HR.study_vi (to_study r) = Fin (snd (report_effect r)) /\
  0 < snd (report_effect r).
Proof.
  intros (Hh & Hlo & Hhi & Hne).
  unfold HR.study_yi, HR.study_vi, HR.log_hazard_ratio, to_study, report_effect.
  cbn [HR.hr HR.ciLower HR.ciUpper fst snd].
  rewrite !np_log_fin by assumption. cbn [fsub fneg fadd fmul].
  rewrite np_div_fin by lra.
  split; [reflexivity |]. split; [reflexivity |].
  assert (Hln : ln (reported_upper r) <> ln (reported_lower r)).
  { intros H. apply Hne. symmetry. now apply ln_inv. }
  assert (Hs : (ln (reported_upper r) - ln (reported_lower r)) / (2 * 1.96)
               <> 0).
  { unfold Rdiv. apply Rmult_integral_contrapositive_currified; [lra |].
    apply Rinv_neq_0_compat. lra. }
  nra.
Qed.

Lemma study_arrays (rs : list hr_report) :
  Forall proper_report rs ->
  map HR.study_yi (map to_study rs) = yis (map report_effect rs) /\
  map HR.study_vi (map to_study rs) = vis (map report_effect rs) /\
  positive_variances (map report_effect rs).
Proof.
  induction 1 as [| r rs Hr _ (IHy & IHv & IHp)].
  - repeat split. constructor.
  - destruct (study_effect r Hr) as (Hy & Hv & Hp).
    unfold yis, vis in IHy, IHv |- * . cbn [map].
    rewrite Hy, Hv, IHy, IHv. repeat split. now constructor.
Qed.

Lemma weight_entry (s : HR.study) (w : num) :
  dict_num "weight" (HR.per_study_entry s ++ [("weight"%string, PyFloat w)])
  = Some w.
Proof. reflexivity. Qed.

Lemma weights_of_entries (entries : list dict) (ws : list num) :
  (forall e w, In e entries ->
     dict_num "weight" (e ++ [("weight"%string, PyFloat w)]) = Some w) ->
  length entries = length ws ->
  map (dict_num "weight")
      (map (fun pw => fst pw ++ [("weight"%string, PyFloat (snd pw))])
           (combine entries ws))
  = map Some ws.
Proof.
  revert ws. induction entries as [| e entries IH]; intros [| w ws] He Hlen;
    try discriminate; [reflexivity |].
  cbn [combine map fst snd]. rewrite (He e w (or_introl eq_refl)).
  f_equal. apply IH; [| now injection Hlen].
  intros e' w' Hin. apply He. now right.
Qed.

Lemma weights_at_positive (t : R) (es : list (R * R)) :
  es <> [] -> 0 <= t -> positive_variances es ->
  Forall (fun x => exists r : R, x = Fin r /\ 0 < r) (weights_at es t).
Proof.
  intros Hne Ht Hpos. pose proof (sum_w_at_pos t es Hne Ht Hpos) as Hs.
  unfold weights_at. apply Forall_map.
  eapply Forall_impl; [| exact Hpos]. intros e He. simpl in He.
  eexists. split; [reflexivity |]. unfold weight_pct_at.
  assert (0 < w_at t e) by (unfold w_at, vi; apply Rdiv_lt_0_compat; lra).
  assert (0 < w_at t e / sum_w_at es t) by (now apply Rdiv_lt_0_compat).
  lra.
Qed.







(** ** Binary scenarios *)

(** ** From counts to the pooled result *)

Lemma effect_sizes_eval
    (effect : num -> num -> num -> num -> exc (num * num))
    (value : binary_study -> R * R) (sei : binary_study -> R)
    (studies : list binary_study) :
  (forall s, In s studies ->
     effect (of_int (events1 s)) (of_int (total1 s))
            (of_int (events2 s)) (of_int (total2 s))
     = Ok (Fin (fst (value s)), Fin (sei s)) /\
     snd (value s) = (sei s * sei s)%R /\ 0 < sei s) ->
  effect_sizes effect studies
  = Ok (yis (map value studies), vis (map value studies)) /\
  positive_variances (map value studies).
Proof.
  induction studies as [| s studies IH]; intros Hs.
  - split; [reflexivity | constructor].
  - destruct (Hs s (or_introl eq_refl)) as (He & Hv & Hpos).
    destruct IH as [IH Hp]; [intros s' Hin; apply Hs; now right |].
    cbn [effect_sizes]. rewrite He. cbn [bind]. rewrite IH. cbn [bind].
    unfold yis, vis. cbn [map fsq fmul]. rewrite Hv.
    split; [reflexivity |]. constructor; [| exact Hp].
    cbn [snd]. rewrite Hv. nra.
Qed.



(** ** Egger's regression on three or more studies *)

(** ** Egger's regression on three or more studies *)

Import EggerFormulas.

Lemma np_mean_fin (g : R * R -> R) (es : list (R * R)) :
  es <> [] ->
  np_mean (map (fun e => Fin (g e)) es)
  = Fin (sumR (map g es) / IZR (Z.of_nat (length es))).
Proof.
  intros Hne. unfold np_mean. rewrite np_sum_fin, length_map.
  unfold of_int. apply np_div_fin.
  apply not_0_IZR. destruct es; [congruence | simpl; lia].
Qed.

Lemma sumR_zero_terms (l : list R) :
  Forall (fun r => 0 <= r) l -> sumR l = 0%R -> Forall (fun r => r = 0%R) l.
Proof.
  induction 1 as [| r l Hr Hl IH]; intros Hs; [constructor |].
  simpl in Hs. pose proof (sumR_nonneg l Hl) as Hn.
  constructor; [lra | apply IH; lra].
Qed.

Lemma Sxx_nonneg (es : list (R * R)) : 0 <= Sxx es.
Proof.
  unfold Sxx. apply sumR_nonneg, Forall_map, Forall_forall.
  intros e _. apply pow2_ge_0.
Qed.

(** [Sxx] vanishes only if all standard errors are the same. *)
Lemma Sxx_positive (es : list (R * R)) (e1 e2 : R * R) :
  Forall (fun e => 0 < snd e) es ->
  In e1 es -> In e2 es -> snd e1 <> snd e2 ->
  0 < Sxx es.
Proof.
  intros Hpos H1 H2 Hne.
  destruct (Rle_lt_or_eq_dec _ _ (Sxx_nonneg es)) as [Hlt | Heq];
    [exact Hlt | exfalso].
  symmetry in Heq. unfold Sxx in Heq.
  apply sumR_zero_terms in Heq;
    [| apply Forall_map, Forall_forall; intros e _; apply pow2_ge_0].
  rewrite Forall_map, Forall_forall in Heq.
  rewrite Forall_forall in Hpos.
  assert (Hx : forall e, In e es -> x e = mean_x es).
  { intros e He. specialize (Heq e He). simpl in Heq. nra. }
  assert (Hxx : x e1 = x e2) by (now rewrite (Hx e1 H1), (Hx e2 H2)).
  unfold x in Hxx.
  pose proof (Hpos e1 H1) as Hp1. pose proof (Hpos e2 H2) as Hp2.
  apply Hne.
  assert (Hinv : (/ snd e1 = / snd e2)%R) by lra.
  apply (f_equal Rinv) in Hinv. now rewrite !Rinv_inv in Hinv.
Qed.

Lemma egger_arrays (es : list (R * R)) :
  Forall (fun e => 0 < snd e) es ->
  scalar_arr np_div (Fin 1) (seis es) = map (fun e => Fin (x e)) es /\
  arr_map2 np_div (yis es) (seis es) = map (fun e => Fin (y e)) es.
Proof.
  intros Hpos. unfold seis, yis. split.
  - rewrite scalar_arr_col.
    apply map_fin_ext with (P := fun e => 0 < snd e); [exact Hpos |].
    intros e He. now rewrite np_div_fin by lra.
  - rewrite arr_map2_cols.
    apply map_fin_ext with (P := fun e => 0 < snd e); [exact Hpos |].
    intros e He. now rewrite np_div_fin by lra.
Qed.

Lemma eggers_test_eval stats (es : list (R * R)) :
  (3 <= length es)%nat -> Forall (fun e => 0 < snd e) es -> 0 < Sxx es ->
  GoldStandard.eggers_test stats (yis es) (seis es)
  = Ok {| GoldStandard.intercept := Fin (intercept es);
          GoldStandard.se_intercept := Fin (se_intercept es);
          GoldStandard.t_egger := Fin (intercept es) /. Fin (se_intercept es);
          GoldStandard.p_egger :=
            Fin 2 *. (Fin 1 -.
                      t_cdf stats
                        (fabs (Fin (intercept es) /. Fin (se_intercept es)))
                        (Z.of_nat (length es) - 2));
          GoldStandard.df_egger := (Z.of_nat (length es) - 2)%Z |} /\
  0 <= mse es * (1 / n es + mean_x es ^ 2 / Sxx es).
Proof.
  intros Hlen Hpos HS.
  assert (Hne : es <> []) by (destruct es; [simpl in Hlen; lia | discriminate]).
  destruct (egger_arrays es Hpos) as [Hx Hy].
  assert (Hn : 3 <= n es).
  { unfold n. change 3%R with (IZR 3). apply IZR_le. lia. }
  assert (Harg : 0 <= mse es * (1 / n es + mean_x es ^ 2 / Sxx es)).
  { apply Rmult_le_pos.
    - unfold mse. apply Rmult_le_pos.
      + unfold sse. apply sumR_nonneg, Forall_map, Forall_forall.
        intros e _. apply pow2_ge_0.
      + apply Rlt_le, Rinv_0_lt_compat. lra.
    - assert (0 < 1 / n es) by (apply Rdiv_lt_0_compat; lra).
      assert (0 <= mean_x es ^ 2 / Sxx es).
      { apply Rmult_le_pos; [apply pow2_ge_0 |].
        apply Rlt_le, Rinv_0_lt_compat, HS. }
      lra. }
  split; [| exact Harg].
  unfold GoldStandard.eggers_test. cbv zeta.
  rewrite Hx, Hy. rewrite !length_map.
  rewrite !np_mean_fin by exact Hne.
  fold (n es). fold (mean_x es). fold (mean_y es).
  rewrite !arr_scalar_col, !map_map, !arr_map2_cols.
  cbn [fsub fneg fadd fsq fmul]. rewrite !np_sum_fin.
  assert (HSxx : sumR (map (fun e => (x e + - mean_x es)
                                     * (x e + - mean_x es)) es) = Sxx es).
  { unfold Sxx. apply (f_equal sumR), map_ext. intros e. ring. }
  assert (HSxy : sumR (map (fun e => (x e + - mean_x es)
                                     * (y e + - mean_y es)) es) = Sxy es).
  { unfold Sxy. apply (f_equal sumR), map_ext. intros e. ring. }
  rewrite HSxx, HSxy.
  rewrite !np_div_fin by lra. fold (slope es).
  cbn [fsub fneg fadd fsq fmul].
  replace (mean_y es + - (slope es * mean_x es))%R with (intercept es)
    by (unfold intercept; ring).
  rewrite !scalar_arr_col, !arr_map2_cols, !map_map.
  cbn [fsub fneg fadd fsq fmul]. rewrite !np_sum_fin.
  assert (Hsse : sumR (map (fun e =>
                              (y e + - (intercept es + slope es * x e))
                              * (y e + - (intercept es + slope es * x e)))
                           es) = sse es).
  { unfold sse. apply (f_equal sumR), map_ext. intros e. ring. }
  rewrite Hsse. unfold of_int.
  rewrite minus_IZR. fold (n es).
  rewrite !np_div_fin by lra. fold (mse es).
  rewrite py_div_fin by lra. cbn [bind fadd fmul].
  replace (mean_x es * mean_x es)%R with (mean_x es ^ 2)%R by ring.
  rewrite np_sqrt_fin by exact Harg. fold (se_intercept es).
  reflexivity.
Qed.



Lemma sumR_map_const (g : R * R -> R) (c : R) (es : list (R * R)) :
  (forall e, In e es -> g e = c) ->
  sumR (map g es) = (IZR (Z.of_nat (length es)) * c)%R.
Proof.
  induction es as [| e es IH]; intros Hc.
  - simpl. lra.
  - cbn [map length]. rewrite Nat2Z.inj_succ, succ_IZR.
    change (sumR (g e :: map g es)) with (g e + sumR (map g es))%R.
    rewrite IH by (intros e' He'; apply Hc; now right).
    rewrite (Hc e (or_introl eq_refl)). ring.
Qed.

Lemma Sxx_equal_errors (s : R) (es : list (R * R)) :
  es <> [] -> (forall e, In e es -> snd e = s) -> Sxx es = 0%R.
Proof.
  intros Hne Hs.
  assert (Hn : n es <> 0).
  { unfold n. apply not_0_IZR. destruct es; [congruence | simpl; lia]. }
  remember (1 / s)%R as c eqn:Hc.
  assert (Hx : forall e, In e es -> x e = c)
    by (intros e He; unfold x; now rewrite (Hs e He)).
  assert (Hm : mean_x es = c).
  { unfold mean_x. rewrite (sumR_map_const x c es Hx).
    fold (n es). field. exact Hn. }
  unfold Sxx. rewrite (map_ext_in _ (fun _ => 0%R)).
  - clear. induction es as [| e es IH]; simpl; [reflexivity | lra].
  - intros e He. rewrite (Hx e He), Hm. ring.
Qed.

Lemma Sxx_num (es : list (R * R)) :
  np_sum (map fsq (arr_scalar fsub (map (fun e => Fin (x e)) es)
                     (Fin (mean_x es))))
  = Fin (Sxx es).
Proof.
  rewrite arr_scalar_col, map_map. cbn [fsub fneg fadd fsq fmul].
  rewrite np_sum_fin. unfold Sxx.
  apply f_equal, (f_equal sumR), map_ext. intros e. ring.
Qed.



(** ** Perfectly collinear points *)

Section Collinear.
Variables (a b : R) (es : list (R * R)).
Hypothesis Hline : forall e, In e es -> y e = (a + b * x e)%R.
Hypothesis Hlen : (3 <= length es)%nat.
Hypothesis HS : 0 < Sxx es.

Lemma sumR_map_plus (g h : R * R -> R) (l : list (R * R)) :
  sumR (map (fun e => g e + h e) l)%R = (sumR (map g l) + sumR (map h l))%R.
Proof. induction l as [| e l IH]; simpl; [lra | rewrite IH; lra]. Qed.

Lemma sumR_map_mult_l (c : R) (g : R * R -> R) (l : list (R * R)) :
  sumR (map (fun e => c * g e) l)%R = (c * sumR (map g l))%R.
Proof. induction l as [| e l IH]; simpl; [lra | rewrite IH; lra]. Qed.

Lemma collinear_mean : mean_y es = (a + b * mean_x es)%R.
Proof.
  assert (Hn : n es <> 0).
  { unfold n. apply not_0_IZR. lia. }
  unfold mean_y, mean_x.
  rewrite (map_ext_in y (fun e => (fun _ => a) e + (fun e => b * x e) e)%R)
    by (intros e He; now apply Hline).
  rewrite sumR_map_plus, sumR_map_mult_l.
  rewrite (sumR_map_const (fun _ => a) a es) by reflexivity.
  fold (n es). field. exact Hn.
Qed.

Lemma collinear_slope : slope es = b.
Proof.
  unfold slope, Sxy.
  rewrite (map_ext_in _ (fun e => b * (x e - mean_x es) ^ 2)%R).
  - rewrite sumR_map_mult_l. fold (Sxx es). field. lra.
  - intros e He. rewrite (Hline e He), collinear_mean. ring.
Qed.

Lemma collinear_intercept : intercept es = a.
Proof. unfold intercept. rewrite collinear_slope, collinear_mean. ring. Qed.

Lemma collinear_se : se_intercept es = 0%R.
Proof.
  unfold se_intercept, mse, sse.
  rewrite (map_ext_in _ (fun _ => 0%R)).
  - replace (sumR (map (fun _ => 0%R) es)) with 0%R.
    + unfold Rdiv. rewrite !Rmult_0_l. apply sqrt_0.
    + clear. induction es as [| e l IH]; simpl; [reflexivity | lra].
  - intros e He.
    rewrite (Hline e He), collinear_intercept, collinear_slope. ring.
Qed.

End Collinear.



(** ** Comparing values *)

Lemma tiny_pos : 0 < CompareComprehensive.tiny.
Proof.
  unfold CompareComprehensive.tiny. apply Rinv_0_lt_compat, pow_lt. lra.
Qed.

Lemma tiny_lt_1 : CompareComprehensive.tiny < 1.
Proof.
  unfold CompareComprehensive.tiny. rewrite <- Rinv_1.
  apply Rinv_lt_contravar; [| ]; simpl; lra.
Qed.

Lemma py_max_fin (a b : R) : py_max (Fin a) (Fin b) = Fin (Rmax a b).
Proof.
  unfold py_max, fltb, Rltb, Rmax.
  destruct (Rlt_dec a b), (Rle_dec a b); try reflexivity; f_equal; lra.
Qed.

Lemma orb_Rltb (a b c d e f : R) :
  (a < b \/ c < d <-> e < f) ->
  Rltb a b || Rltb c d = Rltb e f.
Proof.
  unfold Rltb. intros H.
  destruct (Rlt_dec a b), (Rlt_dec c d), (Rlt_dec e f); simpl;
    try reflexivity; exfalso; tauto.
Qed.


Lemma py_max_tiny (e : num) :
  py_max (fabs e) (Fin CompareComprehensive.tiny) = NaN \/
  py_max (fabs e) (Fin CompareComprehensive.tiny) = PInf \/
  exists m, 0 < m /\ py_max (fabs e) (Fin CompareComprehensive.tiny) = Fin m.
Proof.
  pose proof tiny_pos as Ht.
  destruct e as [r | | |]; cbn [fabs]; unfold py_max; cbn [fltb]; auto.
  right; right. unfold Rltb.
  destruct (Rlt_dec (Rabs r) CompareComprehensive.tiny).
  - eauto.
  - exists (Rabs r). split; [lra | reflexivity].
Qed.

Lemma compare_values_returns (actual expected : option num) (tol : num) :
  exists ok d,
    CompareComprehensive.compare_values actual expected tol = Ok (ok, d).
Proof.
  unfold CompareComprehensive.compare_values.
  destruct expected as [e |], actual as [a |]; eauto. cbv zeta.
  destruct (negb (feqb e (Fin 0))).
  - destruct (py_max_tiny e) as [-> | [-> | [m [Hm ->]]]].
    + unfold py_div. cbn [feqb bind].
      match goal with |- context [if ?c then _ else _] => destruct c end;
        eauto.
    + unfold py_div. cbn [feqb bind].
      match goal with |- context [if ?c then _ else _] => destruct c end;
        eauto.
    + rewrite py_div_nonzero by lra. cbn [bind].
      match goal with |- context [if ?c then _ else _] => destruct c end;
        eauto.
  - cbn [bind].
    match goal with |- context [if ?c then _ else _] => destruct c end;
      eauto.
Qed.

Lemma fabs_cases (x : num) :
  ~ is_finite x -> fabs x = PInf \/ fabs x = NaN.
Proof. destruct x; simpl; tauto. Qed.

Lemma fsub_not_finite (a e : num) :
  ~ is_finite a \/ ~ is_finite e -> ~ is_finite (a -. e).
Proof.
  intros [H | H]; [apply fadd_not_finite_l | apply fsub_not_finite_r];
    exact H.
Qed.

(** X29. When actual or expected is NaN or infinite (both not None),
    compare_values of compare-comprehensive.py does not raise and never
    passes, whatever the tolerance, and the difference it returns is NaN or
    infinite; two equal infinities fail too. *)
Lemma compare_values_not_finite (a e tol : num) :
  ~ is_finite a \/ ~ is_finite e ->
  exists d,
    CompareComprehensive.compare_values (Some a) (Some e) tol
    = Ok (false, d) /\ ~ is_finite d.
Proof.
  intros H. apply fsub_not_finite in H.
  unfold CompareComprehensive.compare_values. cbv zeta.
  destruct (fabs_cases _ H) as [Hd | Hd]; rewrite Hd.
  - destruct (negb (feqb e (Fin 0))).
    + destruct (py_max_tiny e) as [-> | [-> | [m [Hm ->]]]].
      * unfold py_div. cbn [feqb bind np_div fltb orb].
        eexists; split; [reflexivity | simpl; tauto].
      * unfold py_div. cbn [feqb bind np_div fltb orb].
        eexists; split; [reflexivity | simpl; tauto].
      * rewrite py_div_nonzero by lra. cbn [bind np_div].
        rewrite Rltb_false by lra. cbn [fltb orb].
        eexists; split; [reflexivity | simpl; tauto].
    + cbn [bind fltb orb].
      eexists; split; [reflexivity | simpl; tauto].
  - destruct (negb (feqb e (Fin 0))).
    + destruct (py_max_tiny e) as [-> | [-> | [m [Hm ->]]]].
      * unfold py_div. cbn [feqb bind np_div fltb orb].
        eexists; split; [reflexivity | simpl; tauto].
      * unfold py_div. cbn [feqb bind np_div fltb orb].
        eexists; split; [reflexivity | simpl; tauto].
      * rewrite py_div_nonzero by lra. cbn [bind np_div fltb orb].
        eexists; split; [reflexivity | simpl; tauto].
    + cbn [bind fltb orb].
      eexists; split; [reflexivity | simpl; tauto].
Qed.

Lemma compare_values_not_finite_witness :
  exists d,
    CompareComprehensive.compare_values (Some PInf) (Some PInf) (Fin 1)
    = Ok (false, d) /\ ~ is_finite d.
Proof.
  apply (compare_values_not_finite PInf PInf (Fin 1)).
  left. simpl. tauto.
Defined.

(** ** The globals of compare-results.py *)

Lemma check_statuses_ok name mr py tol unit g :
  statuses_ok g -> statuses_ok (CompareResults.check name mr py tol unit g).
Proof.
  intros [Hall Hst]. unfold statuses_ok, CompareResults.check. cbv zeta.
  cbn [CompareResults.all_pass CompareResults.results]. split.
  - rewrite forallb_app. cbn [forallb CompareResults.status].
    rewrite <- Hall.
    destruct (fleb (fabs (mr -. py)) tol); cbn;
      destruct (CompareResults.all_pass g); reflexivity.
  - apply Forall_app. split; [exact Hst |].
    constructor; [| constructor]. cbn [CompareResults.status].
    destruct (fleb (fabs (mr -. py)) tol); auto.
Qed.

Lemma fold_check_statuses_ok calls g :
  statuses_ok g ->
  statuses_ok
    (fold_left (fun g c =>
                  CompareResults.check (CompareResults.call_name c)
                    (CompareResults.call_mr c) (CompareResults.call_py c)
                    (CompareResults.call_tolerance c)
                    (CompareResults.call_unit c) g) calls g).
Proof.
  revert g. induction calls as [| c calls IH]; intros g Hg; [exact Hg |].
  cbn [fold_left]. apply IH, check_statuses_ok, Hg.
Qed.

Lemma fold_check_length calls g :
  length (CompareResults.results
    (fold_left (fun g c =>
                  CompareResults.check (CompareResults.call_name c)
                    (CompareResults.call_mr c) (CompareResults.call_py c)
                    (CompareResults.call_tolerance c)
                    (CompareResults.call_unit c) g) calls g))
  = (length (CompareResults.results g) + length calls)%nat.
Proof.
  revert g. induction calls as [| c calls IH]; intros g.
  - cbn. lia.
  - cbn [fold_left]. rewrite IH. unfold CompareResults.check. cbv zeta.
    cbn [CompareResults.results]. rewrite length_app. cbn. lia.
Qed.

Lemma count_statuses (rs : list CompareResults.check_entry) :
  Forall (fun r => CompareResults.status r = "PASS"%string \/
                   CompareResults.status r = "FAIL"%string) rs ->
  (CompareResults.count_status "PASS" rs
   + CompareResults.count_status "FAIL" rs = length rs)%nat /\
  (forallb (fun r => String.eqb (CompareResults.status r) "PASS") rs = true
   <-> CompareResults.count_status "FAIL" rs = 0%nat).
Proof.
  unfold CompareResults.count_status.
  induction 1 as [| r rs Hr _ [IH1 IH2]]; [cbn; tauto |].
  cbn [filter forallb length].
  destruct Hr as [-> | ->]; cbn [String.eqb Ascii.eqb Bool.eqb andb length].
  - split; [lia | exact IH2].
  - split; [lia |]. split; [discriminate | lia].
Qed.

(** X30. After any sequence of calls of check in compare-results.py, results
    has one entry per call, each entry has status PASS or FAIL so that
    passed + failed = total, and the global all_pass is true exactly when
    failed = 0: the overall verdict agrees with the counts. *)
Lemma check_summary_consistent (calls : list CompareResults.call) :
  let g := CompareResults.run calls in
  length (CompareResults.results g) = length calls /\
  (CompareResults.passed g + CompareResults.failed g = length calls)%nat /\
  (CompareResults.all_pass g = true <-> CompareResults.failed g = 0%nat).
Proof.
  cbv zeta. unfold CompareResults.run.
  assert (H0 : statuses_ok CompareResults.initial).
  { split; [reflexivity | constructor]. }
  pose proof (fold_check_statuses_ok calls _ H0) as [Hall Hst].
  pose proof (fold_check_length calls CompareResults.initial) as Hlen.
  cbn [CompareResults.initial CompareResults.results length Nat.add] in Hlen.
  destruct (count_statuses _ Hst) as [Hc1 Hc2].
  unfold CompareResults.passed, CompareResults.failed.
  rewrite Hall, Hc1, Hlen. tauto.
Qed.
